(** * EosSdk: the file-descriptor interest state machine and the sdk getters

    A shallow embedding of [file.cpp] (handler registry, interest setters,
    per-descriptor cleanup and readiness dispatch) and of the lazily
    initialising manager getters of [eos/inline/sdk.h].

    Pointers are addresses in [N], the null pointer being [0].  The global
    maps of [file.cpp] are [gmap]s, [std::map::operator[]] is written out
    with its default insertion, and [assert] is an outcome of its own. *)

From stdpp Require Import gmap list strings.
From Stdlib Require Import ZArith.

Module File.

(** ** Data *)

Definition null : N := 0%N.

(** [Tac::FileDescriptor]: the raw descriptor and the three interest flags. *)
Record FileDescriptor := {
  descriptor : Z;
  notifyOnReadable : bool;
  notifyOnWritable : bool;
  notifyOnException : bool
}.

(** [FileDescriptorSm]: keyed by [fd] in its owner's collection, holding its
    [FileDescriptor] and the back-reference to the owning [FileHandlerSm]. *)
Record FileDescriptorSm := {
  fd : Z;
  fileDescriptor : FileDescriptor;
  fileHandlerSm : N
}.

(** A [FileHandlerSm] object is its [fileDescriptorSm] collection, keyed by
    descriptor number. *)
Abbreviation FileHandlerSm := (gmap Z FileDescriptorSm) (only parsing).

(** A non-null [FileDescriptorSm::Ptr]: the owning node and the key under
    which the object sits in that node's collection. *)
Abbreviation FileDescriptorSmPtr := (N * Z)%type (only parsing).

(** The process state: the two global maps of [file.cpp] and the store of
    live [FileHandlerSm] objects, by address. *)
Record State := {
  fileHandlerToFileHandlerSm : gmap N N;
  fileHandlerSmToFileHandler : gmap N N;
  heap : gmap N FileHandlerSm
}.

Definition initial : State :=
  {| fileHandlerToFileHandlerSm := ∅;
     fileHandlerSmToFileHandler := ∅;
     heap := ∅ |}.

(** ** Effects: state, failed assertions, undefined behaviour *)

(** A call returns a value and leaves a state; or an [assert] fails and the
    process aborts, in the state it had reached; or the call dereferences a
    pointer behind which there is no object. *)
Inductive Outcome (A : Type) : Type :=
| Returned (a : A) (s : State)
| AssertionFailed (s : State)
| Undefined.
Arguments Returned {A} a s.
Arguments AssertionFailed {A} s.
Arguments Undefined {A}.

Definition M (A : Type) : Type := State -> Outcome A.

Definition ret {A} (a : A) : M A := fun s => Returned a s.

Definition bind {A B} (m : M A) (k : A -> M B) : M B :=
  fun s =>
    match m s with
    | Returned a s' => k a s'
    | AssertionFailed s' => AssertionFailed s'
    | Undefined => Undefined
    end.

Notation "'let*' x ':=' m 'in' k" := (bind m (fun x => k))
  (at level 10, x name, m at level 100, k at level 200, only parsing).
Notation "m ';;' k" := (bind m (fun _ => k))
  (at level 100, k at level 200, right associativity, only parsing).

(** [assert( c )] *)
Definition assert (c : bool) : M unit :=
  fun s => if c then Returned tt s else AssertionFailed s.

(** [std::map<K*, V*>::operator[]]: a key that is absent is inserted with a
    value-initialised (null) mapped value, which is what the call returns. *)
Definition map_index (m : gmap N N) (k : N) : N * gmap N N :=
  match m !! k with
  | Some v => (v, m)
  | None => (null, <[k := null]> m)
  end.

Definition fileHandlerToFileHandlerSm_index (k : N) : M N :=
  fun s =>
    let '(v, m) := map_index (fileHandlerToFileHandlerSm s) k in
    Returned v {| fileHandlerToFileHandlerSm := m;
                  fileHandlerSmToFileHandler := fileHandlerSmToFileHandler s;
                  heap := heap s |}.

Definition fileHandlerToFileHandlerSm_assign (k v : N) : M unit :=
  fun s =>
    Returned tt {| fileHandlerToFileHandlerSm := <[k := v]> (fileHandlerToFileHandlerSm s);
                   fileHandlerSmToFileHandler := fileHandlerSmToFileHandler s;
                   heap := heap s |}.

Definition fileHandlerToFileHandlerSm_erase (k : N) : M unit :=
  fun s =>
    Returned tt {| fileHandlerToFileHandlerSm := delete k (fileHandlerToFileHandlerSm s);
                   fileHandlerSmToFileHandler := fileHandlerSmToFileHandler s;
                   heap := heap s |}.

Definition fileHandlerSmToFileHandler_index (k : N) : M N :=
  fun s =>
    let '(v, m) := map_index (fileHandlerSmToFileHandler s) k in
    Returned v {| fileHandlerToFileHandlerSm := fileHandlerToFileHandlerSm s;
                  fileHandlerSmToFileHandler := m;
                  heap := heap s |}.

Definition fileHandlerSmToFileHandler_assign (k v : N) : M unit :=
  fun s =>
    Returned tt {| fileHandlerToFileHandlerSm := fileHandlerToFileHandlerSm s;
                   fileHandlerSmToFileHandler := <[k := v]> (fileHandlerSmToFileHandler s);
                   heap := heap s |}.

Definition fileHandlerSmToFileHandler_erase (k : N) : M unit :=
  fun s =>
    Returned tt {| fileHandlerToFileHandlerSm := fileHandlerToFileHandlerSm s;
                   fileHandlerSmToFileHandler := delete k (fileHandlerSmToFileHandler s);
                   heap := heap s |}.

(** Reading and writing a [FileHandlerSm] object through its address; there
    is no object behind a dangling or null address. *)
Definition load (node : N) : M FileHandlerSm :=
  fun s =>
    match heap s !! node with
    | Some obj => Returned obj s
    | None => Undefined
    end.

Definition store (node : N) (obj : FileHandlerSm) : M unit :=
  fun s =>
    Returned tt {| fileHandlerToFileHandlerSm := fileHandlerToFileHandlerSm s;
                   fileHandlerSmToFileHandler := fileHandlerSmToFileHandler s;
                   heap := <[node := obj]> (heap s) |}.

(** The last [FileHandlerSm::Ptr] to [node] goes away: the object, with the
    descriptor state machines it owns, is freed. *)
Definition release (node : N) : M unit :=
  fun s =>
    Returned tt {| fileHandlerToFileHandlerSm := fileHandlerToFileHandlerSm s;
                   fileHandlerSmToFileHandler := fileHandlerSmToFileHandler s;
                   heap := delete node (heap s) |}.

(** Reading a [FileDescriptorSm] through a pointer to it. *)
Definition deref (p : FileDescriptorSmPtr) : M FileDescriptorSm :=
  let* obj := load (fst p) in
  match obj !! snd p with
  | Some r => ret r
  | None => fun _ => Undefined
  end.

Section Tac.

(** The descriptor number a [Tac::FileDescriptor] carries when it leaves its
    factory; [get_file_descriptor_sm] overwrites it before anything reads it. *)
Variable unset_descriptor : Z.

(** ** The generated state-machine interface ([FileSm.h]) *)

(** Modelled from the spec: [FileSm.h] is not among the sources.
    [FileHandlerSm::FileHandlerSmIs()] allocates a new HandlerState that owns
    an empty mapping from descriptor number to DescriptorState; [node] is the
    address the allocator hands out. *)
Definition FileHandlerSmIs (node : N) : M N :=
  store node ∅;; ret node.

(** Modelled from the spec: [Tac::FileDescriptor::FileDescriptorIs( name )]
    makes a descriptor record with all three flags false. *)
Definition FileDescriptorIs (name : string) : FileDescriptor :=
  {| descriptor := unset_descriptor;
     notifyOnReadable := false;
     notifyOnWritable := false;
     notifyOnException := false |}.

(** Modelled from the spec: [FileHandlerSm::fileDescriptorSmIs] is
    get-or-create: if no record exists for the key it creates one from the
    constructor arguments and inserts it; it always returns a usable record. *)
Definition fileDescriptorSmIs (self : N) (key : Z)
    (fileDescriptor0 : FileDescriptor) (fileHandlerSm0 : N) : M FileDescriptorSmPtr :=
  let* obj := load self in
  match obj !! key with
  | Some _ => ret (self, key)
  | None =>
      store self (<[key := {| fd := key;
                              fileDescriptor := fileDescriptor0;
                              fileHandlerSm := fileHandlerSm0 |}]> obj);;
      ret (self, key)
  end.

(** Modelled from the spec: [FileHandlerSm::fileDescriptorSm( fd )] looks the
    record up; [None] is the null [Ptr]. *)
Definition fileDescriptorSm (self : N) (key : Z) : M (option FileDescriptorSmPtr) :=
  let* obj := load self in
  ret (match obj !! key with Some _ => Some (self, key) | None => None end).

(** Modelled from the spec: [FileHandlerSm::fileDescriptorSmDel( fd )]
    removes and discards the record. *)
Definition fileDescriptorSmDel (self : N) (key : Z) : M unit :=
  let* obj := load self in
  store self (delete key obj).

(** Modelled from the spec: the attribute mutators of [Tac::FileDescriptor]
    ([descriptorIs], [notifyOnReadableIs], [notifyOnWritableIs],
    [notifyOnExceptionIs]) set the one attribute of the [FileDescriptor] of
    [*p] and leave the others; what the polling side does on a change of a
    flag is outside the state kept here. *)
Definition update (p : FileDescriptorSmPtr) (f : FileDescriptor -> FileDescriptor) : M unit :=
  let* r := deref p in
  let* obj := load (fst p) in
  store (fst p) (<[snd p := {| fd := fd r;
                               fileDescriptor := f (fileDescriptor r);
                               fileHandlerSm := fileHandlerSm r |}]> obj).

Definition descriptorIs (p : FileDescriptorSmPtr) (d : Z) : M unit :=
  update p (fun x => {| descriptor := d;
                        notifyOnReadable := notifyOnReadable x;
                        notifyOnWritable := notifyOnWritable x;
                        notifyOnException := notifyOnException x |}).

Definition notifyOnReadableIs (p : FileDescriptorSmPtr) (b : bool) : M unit :=
  update p (fun x => {| descriptor := descriptor x;
                        notifyOnReadable := b;
                        notifyOnWritable := notifyOnWritable x;
                        notifyOnException := notifyOnException x |}).

Definition notifyOnWritableIs (p : FileDescriptorSmPtr) (b : bool) : M unit :=
  update p (fun x => {| descriptor := descriptor x;
                        notifyOnReadable := notifyOnReadable x;
                        notifyOnWritable := b;
                        notifyOnException := notifyOnException x |}).

Definition notifyOnExceptionIs (p : FileDescriptorSmPtr) (b : bool) : M unit :=
  update p (fun x => {| descriptor := descriptor x;
                        notifyOnReadable := notifyOnReadable x;
                        notifyOnWritable := notifyOnWritable x;
                        notifyOnException := b |}).

(** ** [file.cpp] *)

(** [file_handler::file_handler()]; [node] is the address of the
    [FileHandlerSm] that [FileHandlerSmIs()] allocates.  [m[k] = v] inserts
    or overwrites. *)
Definition file_handler_ctor (this node : N) : M unit :=
  let* fileHandlerSm0 := FileHandlerSmIs node in
  fileHandlerSmToFileHandler_assign fileHandlerSm0 this;;
  fileHandlerToFileHandlerSm_assign this fileHandlerSm0.

(** [file_handler::~file_handler()]; the local [Ptr] is the last one to the
    node once the registry entry is erased. *)
Definition file_handler_dtor (this : N) : M unit :=
  let* fileHandlerSm0 := fileHandlerToFileHandlerSm_index this in
  fileHandlerSmToFileHandler_erase fileHandlerSm0;;
  fileHandlerToFileHandlerSm_erase this;;
  release fileHandlerSm0.

Definition get_file_descriptor_sm (file_handler : N) (fd0 : Z) : M FileDescriptorSmPtr :=
  let* fhSm := fileHandlerToFileHandlerSm_index file_handler in
  assert (negb (bool_decide (fhSm = null)));;
  let* fdSm := fileDescriptorSmIs fhSm fd0 (FileDescriptorIs "FileDescriptor") fhSm in
  descriptorIs fdSm fd0;;
  ret fdSm.

Definition maybeCleanupAfterFileDescriptor (self : N) (fd0 : Z) : M unit :=
  let* fdSm := fileDescriptorSm self fd0 in
  match fdSm with
  | None => assert false
  | Some fdSm =>
      let* r := deref fdSm in
      if negb (notifyOnReadable (fileDescriptor r)) &&
         negb (notifyOnWritable (fileDescriptor r)) &&
         negb (notifyOnException (fileDescriptor r))
      then fileDescriptorSmDel self fd0
      else ret tt
  end.

Definition read_interest_is (this : N) (fd0 : Z) (interest : bool) : M unit :=
  let* fdSm := get_file_descriptor_sm this fd0 in
  notifyOnReadableIs fdSm interest;;
  if negb interest then
    let* r := deref fdSm in
    maybeCleanupAfterFileDescriptor (fileHandlerSm r) fd0
  else ret tt.

Definition write_interest_is (this : N) (fd0 : Z) (interest : bool) : M unit :=
  let* fdSm := get_file_descriptor_sm this fd0 in
  notifyOnWritableIs fdSm interest;;
  if negb interest then
    let* r := deref fdSm in
    maybeCleanupAfterFileDescriptor (fileHandlerSm r) fd0
  else ret tt.

Definition exception_interest_is (this : N) (fd0 : Z) (interest : bool) : M unit :=
  let* fdSm := get_file_descriptor_sm this fd0 in
  notifyOnExceptionIs fdSm interest;;
  if negb interest then
    let* r := deref fdSm in
    maybeCleanupAfterFileDescriptor (fileHandlerSm r) fd0
  else ret tt.

(** The setter of one of the three interests. *)
Inductive interest_kind := Readable | Writable | ExceptionPending.

Definition interest_is (k : interest_kind) : N -> Z -> bool -> M unit :=
  match k with
  | Readable => read_interest_is
  | Writable => write_interest_is
  | ExceptionPending => exception_interest_is
  end.

(** A call of a handler's virtual callback, as the dispatch makes it. *)
Inductive Callback :=
| on_readable (fh : N) (fd0 : Z)
| on_writable (fh : N) (fd0 : Z)
| on_exception (fh : N) (fd0 : Z).

(** The three notification methods run on a [FileDescriptorSm] object
    [self]; they read its [fileHandlerSm()] and [fd()] attributes only. *)
Definition handleReadable (self : FileDescriptorSm) : M Callback :=
  let* fh := fileHandlerSmToFileHandler_index (fileHandlerSm self) in
  assert (negb (bool_decide (fh = null)));;
  ret (on_readable fh (fd self)).

Definition handleWritable (self : FileDescriptorSm) : M Callback :=
  let* fh := fileHandlerSmToFileHandler_index (fileHandlerSm self) in
  assert (negb (bool_decide (fh = null)));;
  ret (on_writable fh (fd self)).

Definition handleExceptionPending (self : FileDescriptorSm) : M Callback :=
  let* fh := fileHandlerSmToFileHandler_index (fileHandlerSm self) in
  assert (negb (bool_decide (fh = null)));;
  ret (on_exception fh (fd self)).

Definition handle (k : interest_kind) : FileDescriptorSm -> M Callback :=
  match k with
  | Readable => handleReadable
  | Writable => handleWritable
  | ExceptionPending => handleExceptionPending
  end.

Definition callback (k : interest_kind) : N -> Z -> Callback :=
  match k with
  | Readable => on_readable
  | Writable => on_writable
  | ExceptionPending => on_exception
  end.

(** ** Runs of the caller *)

(** What the application does with handlers: it constructs them (the
    allocator choosing the node's address), destroys them, and sets interests
    on them. *)
Inductive call :=
| Construct (this node : N)
| Destroy (this : N)
| SetInterest (k : interest_kind) (this : N) (fd0 : Z) (interest : bool).

Definition perform (c : call) : M unit :=
  match c with
  | Construct this node => file_handler_ctor this node
  | Destroy this => file_handler_dtor this
  | SetInterest k this fd0 interest => interest_is k this fd0 interest
  end.

Fixpoint run (t : list call) : M unit :=
  match t with
  | [] => ret tt
  | c :: t' => perform c;; run t'
  end.

(** The handlers alive after a run, each with the address of its node, as
    the caller's own bookkeeping has them. *)
Definition owners_step (g : gmap N N) (c : call) : gmap N N :=
  match c with
  | Construct this node => <[this := node]> g
  | Destroy this => delete this g
  | SetInterest _ _ _ _ => g
  end.

Definition owners_from (g : gmap N N) (t : list call) : gmap N N :=
  foldl owners_step g t.

Definition owners (t : list call) : gmap N N := owners_from ∅ t.

(** What C++ lets a caller do: an object is constructed at an address where
    none is alive, the allocator returns a non-null address that no live
    node occupies, and destructors and methods run on live objects. *)
Definition permitted (g : gmap N N) (c : call) : bool :=
  match c with
  | Construct this node =>
      negb (bool_decide (this = null)) && negb (bool_decide (node = null)) &&
      bool_decide (g !! this = None) &&
      negb (bool_decide (node ∈ (map_img g : gset N)))
  | Destroy this => bool_decide (is_Some (g !! this))
  | SetInterest _ this _ _ => bool_decide (is_Some (g !! this))
  end.

Fixpoint well_formed_from (g : gmap N N) (t : list call) : bool :=
  match t with
  | [] => true
  | c :: t' => permitted g c && well_formed_from (owners_step g c) t'
  end.

Definition well_formed (t : list call) : bool := well_formed_from ∅ t.

Definition reachable (st : State) : Prop :=
  ∃ t, well_formed t = true ∧ run t initial = Returned tt st.

(** ** Derived notions used in the statements *)

Definition any_interest (r : FileDescriptorSm) : bool :=
  notifyOnReadable (fileDescriptor r) ||
  notifyOnWritable (fileDescriptor r) ||
  notifyOnException (fileDescriptor r).

Definition flag (k : interest_kind) (x : FileDescriptor) : bool :=
  match k with
  | Readable => notifyOnReadable x
  | Writable => notifyOnWritable x
  | ExceptionPending => notifyOnException x
  end.

Definition set_flag (k : interest_kind) (b : bool) (x : FileDescriptor) : FileDescriptor :=
  match k with
  | Readable => {| descriptor := descriptor x; notifyOnReadable := b;
                   notifyOnWritable := notifyOnWritable x;
                   notifyOnException := notifyOnException x |}
  | Writable => {| descriptor := descriptor x; notifyOnReadable := notifyOnReadable x;
                   notifyOnWritable := b;
                   notifyOnException := notifyOnException x |}
  | ExceptionPending => {| descriptor := descriptor x; notifyOnReadable := notifyOnReadable x;
                           notifyOnWritable := notifyOnWritable x;
                           notifyOnException := b |}
  end.

(** The descriptor mapping of the node registered for handler [h]
    (empty when [h] is not registered). *)
Definition descriptor_states (st : State) (h : N) : gmap Z FileDescriptorSm :=
  match fileHandlerToFileHandlerSm st !! h with
  | Some node => default ∅ (heap st !! node)
  | None => ∅
  end.

(** The value of interest [k] on [(h, key)]: false when there is no record. *)
Definition current_interest (st : State) (h : N) (key : Z) (k : interest_kind) : bool :=
  match descriptor_states st h !! key with
  | Some r => flag k (fileDescriptor r)
  | None => false
  end.

(** ** Closed form of an interest setter *)

Definition with_heap (st : State) (hp : gmap N (gmap Z FileDescriptorSm)) : State :=
  {| fileHandlerToFileHandlerSm := fileHandlerToFileHandlerSm st;
     fileHandlerSmToFileHandler := fileHandlerSmToFileHandler st;
     heap := hp |}.

Definition with_fileDescriptor (r : FileDescriptorSm) (x : FileDescriptor) : FileDescriptorSm :=
  {| fd := fd r; fileDescriptor := x; fileHandlerSm := fileHandlerSm r |}.

Definition set_descriptor (d : Z) (x : FileDescriptor) : FileDescriptor :=
  {| descriptor := d;
     notifyOnReadable := notifyOnReadable x;
     notifyOnWritable := notifyOnWritable x;
     notifyOnException := notifyOnException x |}.

(** The record [get_file_descriptor_sm] leaves under [key] in [obj]. *)
Definition served (key : Z) (node : N) (obj : gmap Z FileDescriptorSm) : FileDescriptorSm :=
  match obj !! key with
  | Some r => with_fileDescriptor r (set_descriptor key (fileDescriptor r))
  | None => {| fd := key;
               fileDescriptor := set_descriptor key (FileDescriptorIs "FileDescriptor");
               fileHandlerSm := node |}
  end.

(** The collection of the node after a setter has run on it. *)
Definition after_interest (k : interest_kind) (key : Z) (v : bool) (node : N)
    (obj : gmap Z FileDescriptorSm) : gmap Z FileDescriptorSm :=
  let r := served key node obj in
  let r' := with_fileDescriptor r (set_flag k v (fileDescriptor r)) in
  if negb v && negb (any_interest r') then delete key obj else <[key := r']> obj.

(** The record a setter writes under [key], before the cleanup check. *)
Definition written (k : interest_kind) (key : Z) (v : bool) (node : N)
    (obj : gmap Z FileDescriptorSm) : FileDescriptorSm :=
  with_fileDescriptor (served key node obj)
    (set_flag k v (fileDescriptor (served key node obj))).

(** Whether one of the two interests other than [k] is set. *)
Definition other_interest (k : interest_kind) (x : FileDescriptor) : bool :=
  match k with
  | Readable => notifyOnWritable x || notifyOnException x
  | Writable => notifyOnReadable x || notifyOnException x
  | ExceptionPending => notifyOnReadable x || notifyOnWritable x
  end.

(** ** The invariant of well-formed runs *)

Record Inv (g : gmap N N) (st : State) : Prop := {
  inv_forward : fileHandlerToFileHandlerSm st = g;
  inv_reverse : ∀ node h,
    fileHandlerSmToFileHandler st !! node = Some h ↔ g !! h = Some node;
  inv_nonnull : ∀ h node, g !! h = Some node -> h ≠ null ∧ node ≠ null;
  inv_heap : ∀ node, is_Some (heap st !! node) ↔ ∃ h, g !! h = Some node;
  inv_records : ∀ node obj key r,
    heap st !! node = Some obj -> obj !! key = Some r ->
    fd r = key ∧ descriptor (fileDescriptor r) = key ∧
    fileHandlerSm r = node ∧ any_interest r = true
}.

(** ** A concrete run *)

Definition demo : list call :=
  [Construct 1 10; Construct 2 20;
   SetInterest Readable 1 7 true; SetInterest Writable 1 7 true;
   SetInterest ExceptionPending 2 5 true].

Definition demo_fd7 : FileDescriptorSm :=
  {| fd := 7;
     fileDescriptor := {| descriptor := 7; notifyOnReadable := true;
                          notifyOnWritable := true; notifyOnException := false |};
     fileHandlerSm := 10 |}.

Definition demo_fd5 : FileDescriptorSm :=
  {| fd := 5;
     fileDescriptor := {| descriptor := 5; notifyOnReadable := false;
                          notifyOnWritable := false; notifyOnException := true |};
     fileHandlerSm := 20 |}.

Definition demo_state : State :=
  {| fileHandlerToFileHandlerSm := {[ 1%N := 10%N; 2%N := 20%N ]};
     fileHandlerSmToFileHandler := {[ 10%N := 1%N; 20%N := 2%N ]};
     heap := {[ 10%N := {[ 7%Z := demo_fd7 ]}; 20%N := {[ 5%Z := demo_fd5 ]} ]} |}.

(** ** Evaluation of the operations *)

Lemma bind_returned {A B} (m : M A) (f : A -> M B) s a s' :
  m s = Returned a s' -> bind m f s = f a s'.
Proof. unfold bind. intros ->. reflexivity. Qed.

Lemma load_eval st node obj :
  heap st !! node = Some obj -> load node st = Returned obj st.
Proof. unfold load. intros ->. reflexivity. Qed.

Lemma deref_eval st p obj r :
  heap st !! fst p = Some obj -> obj !! snd p = Some r ->
  deref p st = Returned r st.
Proof.
  intros Hobj Hr. unfold deref.
  rewrite (bind_returned _ _ _ _ _ (load_eval _ _ _ Hobj)), Hr. reflexivity.
Qed.

Lemma update_eval st p f obj r :
  heap st !! fst p = Some obj -> obj !! snd p = Some r ->
  update p f st
  = Returned tt (with_heap st
      (<[fst p := <[snd p := with_fileDescriptor r (f (fileDescriptor r))]> obj]> (heap st))).
Proof.
  intros Hobj Hr. unfold update.
  rewrite (bind_returned _ _ _ _ _ (deref_eval _ _ _ _ Hobj Hr)).
  rewrite (bind_returned _ _ _ _ _ (load_eval _ _ _ Hobj)).
  reflexivity.
Qed.

Lemma fileDescriptorSmIs_eval st self key x n obj :
  heap st !! self = Some obj ->
  fileDescriptorSmIs self key x n st
  = Returned (self, key)
      (match obj !! key with
       | Some _ => st
       | None => with_heap st
           (<[self := <[key := {| fd := key; fileDescriptor := x; fileHandlerSm := n |}]> obj]>
              (heap st))
       end).
Proof.
  intros Hobj. unfold fileDescriptorSmIs.
  erewrite bind_returned; last by apply load_eval.
  destruct (obj !! key); reflexivity.
Qed.

Lemma get_file_descriptor_sm_eval st h key node obj :
  fileHandlerToFileHandlerSm st !! h = Some node ->
  node ≠ null ->
  heap st !! node = Some obj ->
  get_file_descriptor_sm h key st
  = Returned (node, key)
      (with_heap st (<[node := <[key := served key node obj]> obj]> (heap st))).
Proof.
  intros Hh Hnn Hobj. destruct st as [fwd rev hp]; simpl in *.
  unfold get_file_descriptor_sm.
  erewrite bind_returned; last first.
  { unfold fileHandlerToFileHandlerSm_index, map_index; simpl. rewrite Hh. reflexivity. }
  erewrite bind_returned; last first.
  { unfold assert. rewrite (bool_decide_eq_false_2 _ Hnn). reflexivity. }
  erewrite bind_returned; last by (apply fileDescriptorSmIs_eval; simpl; exact Hobj).
  unfold served, descriptorIs.
  destruct (obj !! key) as [r|] eqn:Hr.
  - erewrite bind_returned; last by (eapply update_eval; simpl; eauto).
    reflexivity.
  - erewrite bind_returned; last first.
    { eapply update_eval; simpl; apply lookup_insert_eq. }
    unfold ret, with_heap; simpl.
    rewrite !insert_insert_eq. reflexivity.
Qed.

Lemma maybeCleanupAfterFileDescriptor_eval st node key obj r :
  heap st !! node = Some obj -> obj !! key = Some r ->
  maybeCleanupAfterFileDescriptor node key st
  = Returned tt (if negb (any_interest r)
                 then with_heap st (<[node := delete key obj]> (heap st))
                 else st).
Proof.
  intros Hobj Hr. unfold maybeCleanupAfterFileDescriptor, fileDescriptorSm.
  erewrite bind_returned; last first.
  { erewrite bind_returned; last by apply load_eval. rewrite Hr. reflexivity. }
  cbn beta iota.
  erewrite bind_returned; last by (eapply deref_eval; simpl; eauto).
  unfold any_interest.
  destruct (notifyOnReadable _), (notifyOnWritable _), (notifyOnException _); simpl;
    try reflexivity.
  unfold fileDescriptorSmDel.
  erewrite bind_returned; last by apply load_eval. reflexivity.
Qed.

Lemma interest_is_eval k h key v st node obj :
  fileHandlerToFileHandlerSm st !! h = Some node ->
  node ≠ null ->
  heap st !! node = Some obj ->
  (v = false -> ∀ r, obj !! key = Some r -> fileHandlerSm r = node) ->
  interest_is k h key v st
  = Returned tt (with_heap st (<[node := after_interest k key v node obj]> (heap st))).
Proof.
  intros Hh Hnn Hobj Hback.
  assert (Hown : v = false -> fileHandlerSm (served key node obj) = node).
  { intros Hv. unfold served. destruct (obj !! key) as [r|] eqn:Hr; cbn; eauto. }
  pose proof (get_file_descriptor_sm_eval st h key node obj Hh Hnn Hobj) as Hget.
  set (r := served key node obj) in *.
  assert (Hset : ∀ f,
    update (node, key) f (with_heap st (<[node := <[key := r]> obj]> (heap st)))
    = Returned tt (with_heap st
        (<[node := <[key := with_fileDescriptor r (f (fileDescriptor r))]> obj]> (heap st)))).
  { intros f. rewrite (update_eval _ _ f (<[key := r]> obj) r);
      cbn [fst snd heap with_heap]; [|apply lookup_insert_eq..].
    rewrite !insert_insert_eq. reflexivity. }
  assert (Hk : ∀ f, (∀ x, f x = set_flag k v x) ->
    bind (get_file_descriptor_sm h key)
         (fun fdSm => bind (update fdSm f) (fun _ =>
            if negb v
            then bind (deref fdSm) (fun r0 =>
                   maybeCleanupAfterFileDescriptor (fileHandlerSm r0) key)
            else ret tt)) st
    = Returned tt (with_heap st (<[node := after_interest k key v node obj]> (heap st)))).
  { intros f Hf.
    erewrite bind_returned; last exact Hget.
    erewrite bind_returned; last apply Hset.
    unfold after_interest. fold r. rewrite Hf.
    destruct v; cbn [negb andb]; [reflexivity|].
    erewrite bind_returned; last first.
    { eapply deref_eval; cbn [fst snd heap with_heap]; apply lookup_insert_eq. }
    cbn [fileHandlerSm with_fileDescriptor]. rewrite (Hown eq_refl).
    erewrite maybeCleanupAfterFileDescriptor_eval;
      cbn [heap with_heap]; [|apply lookup_insert_eq..].
    destruct (any_interest _); cbn [negb]; [reflexivity|].
    unfold with_heap; cbn [heap fileHandlerToFileHandlerSm fileHandlerSmToFileHandler].
    rewrite insert_insert_eq, delete_insert_eq. reflexivity. }
  destruct k; apply Hk; intros []; reflexivity.
Qed.

Lemma file_handler_ctor_eval this node st :
  file_handler_ctor this node st
  = Returned tt {| fileHandlerToFileHandlerSm := <[this := node]> (fileHandlerToFileHandlerSm st);
                   fileHandlerSmToFileHandler := <[node := this]> (fileHandlerSmToFileHandler st);
                   heap := <[node := ∅]> (heap st) |}.
Proof. reflexivity. Qed.

Lemma file_handler_dtor_eval this node st :
  fileHandlerToFileHandlerSm st !! this = Some node ->
  file_handler_dtor this st
  = Returned tt {| fileHandlerToFileHandlerSm := delete this (fileHandlerToFileHandlerSm st);
                   fileHandlerSmToFileHandler := delete node (fileHandlerSmToFileHandler st);
                   heap := delete node (heap st) |}.
Proof.
  intros Hh. unfold file_handler_dtor.
  erewrite bind_returned; last first.
  { unfold fileHandlerToFileHandlerSm_index, map_index. rewrite Hh. reflexivity. }
  reflexivity.
Qed.

(** A destructor run on an address that is not registered leaves the maps as
    they were: the entry [operator[]] inserts is the one [erase] removes. *)
Lemma file_handler_dtor_unregistered this st :
  fileHandlerToFileHandlerSm st !! this = None ->
  fileHandlerSmToFileHandler st !! null = None ->
  heap st !! null = None ->
  file_handler_dtor this st = Returned tt st.
Proof.
  intros Hh Hn Hp. unfold file_handler_dtor.
  erewrite bind_returned; last first.
  { unfold fileHandlerToFileHandlerSm_index, map_index. rewrite Hh. reflexivity. }
  destruct st as [fwd rev hp]; cbn in *.
  unfold bind, fileHandlerSmToFileHandler_erase, fileHandlerToFileHandlerSm_erase, release; cbn.
  rewrite delete_insert_eq, !delete_id by assumption. reflexivity.
Qed.

Lemma Inv_initial : Inv ∅ initial.
Proof.
  split; cbn.
  - reflexivity.
  - intros node h. rewrite !lookup_empty. split; discriminate.
  - intros h node. rewrite lookup_empty. discriminate.
  - intros node. rewrite lookup_empty. split.
    + intros [? ?]; discriminate.
    + intros [h Hh]. rewrite lookup_empty in Hh. discriminate.
  - intros node obj key r. rewrite lookup_empty. discriminate.
Qed.

Lemma Inv_injective g st h1 h2 node :
  Inv g st -> g !! h1 = Some node -> g !! h2 = Some node -> h1 = h2.
Proof.
  intros HI H1 H2.
  apply (inv_reverse _ _ HI) in H1, H2. congruence.
Qed.

Lemma Inv_construct g st this node :
  Inv g st ->
  permitted g (Construct this node) = true ->
  Inv (<[this := node]> g)
      {| fileHandlerToFileHandlerSm := <[this := node]> (fileHandlerToFileHandlerSm st);
         fileHandlerSmToFileHandler := <[node := this]> (fileHandlerSmToFileHandler st);
         heap := <[node := ∅]> (heap st) |}.
Proof.
  intros HI Hp. cbn in Hp.
  apply andb_true_iff in Hp as [Hp Hfresh].
  apply andb_true_iff in Hp as [Hp Hfree].
  apply andb_true_iff in Hp as [Hthis Hnode].
  apply negb_true_iff, bool_decide_eq_false in Hthis, Hnode, Hfresh.
  apply bool_decide_eq_true in Hfree.
  assert (Hfresh' : ∀ h, g !! h ≠ Some node).
  { intros h Hh. apply Hfresh, elem_of_map_img. eauto. }
  split; cbn.
  - by rewrite (inv_forward _ _ HI).
  - intros n h. destruct (decide (n = node)) as [->|Hn].
    + rewrite lookup_insert_eq. destruct (decide (h = this)) as [->|Hh].
      * rewrite lookup_insert_eq. done.
      * rewrite lookup_insert_ne by done. split; [congruence|].
        intros Hg. by apply Hfresh' in Hg.
    + rewrite lookup_insert_ne by done. rewrite (inv_reverse _ _ HI).
      destruct (decide (h = this)) as [->|Hh].
      * rewrite lookup_insert_eq, Hfree. split; congruence.
      * by rewrite lookup_insert_ne.
  - intros h n. destruct (decide (h = this)) as [->|Hh].
    + rewrite lookup_insert_eq. intros [= <-]. done.
    + rewrite lookup_insert_ne by done. apply (inv_nonnull _ _ HI).
  - intros n. destruct (decide (n = node)) as [->|Hn].
    + rewrite lookup_insert_eq. split; [|eauto].
      intros _. exists this. apply lookup_insert_eq.
    + rewrite lookup_insert_ne by done. rewrite (inv_heap _ _ HI). split.
      * intros [h Hh]. exists h. rewrite lookup_insert_ne; [done|].
        intros ->. congruence.
      * intros [h Hh]. destruct (decide (h = this)) as [->|Hne].
        -- rewrite lookup_insert_eq in Hh. congruence.
        -- rewrite lookup_insert_ne in Hh by done. eauto.
  - intros n obj key r. destruct (decide (n = node)) as [->|Hn].
    + rewrite lookup_insert_eq. intros [= <-]. rewrite lookup_empty. discriminate.
    + rewrite lookup_insert_ne by done. apply (inv_records _ _ HI).
Qed.

Lemma Inv_destroy g st this node :
  Inv g st ->
  g !! this = Some node ->
  Inv (delete this g)
      {| fileHandlerToFileHandlerSm := delete this (fileHandlerToFileHandlerSm st);
         fileHandlerSmToFileHandler := delete node (fileHandlerSmToFileHandler st);
         heap := delete node (heap st) |}.
Proof.
  intros HI Hg.
  assert (Hinj : ∀ h, g !! h = Some node -> h = this).
  { intros h Hh. eapply Inv_injective; eauto. }
  split; cbn.
  - by rewrite (inv_forward _ _ HI).
  - intros n h. destruct (decide (n = node)) as [->|Hn].
    + rewrite lookup_delete_eq. split; [discriminate|].
      intros Hd. destruct (decide (h = this)) as [->|Hh].
      * rewrite lookup_delete_eq in Hd. discriminate.
      * rewrite lookup_delete_ne in Hd by done. by apply Hinj in Hd.
    + rewrite lookup_delete_ne by done. rewrite (inv_reverse _ _ HI).
      destruct (decide (h = this)) as [->|Hh].
      * rewrite lookup_delete_eq, Hg. split; [congruence|discriminate].
      * by rewrite lookup_delete_ne.
  - intros h n Hd. destruct (decide (h = this)) as [->|Hh].
    + rewrite lookup_delete_eq in Hd. discriminate.
    + rewrite lookup_delete_ne in Hd by done. by apply (inv_nonnull _ _ HI) in Hd.
  - intros n. destruct (decide (n = node)) as [->|Hn].
    + rewrite lookup_delete_eq. split.
      * intros [? ?]; discriminate.
      * intros [h Hd]. destruct (decide (h = this)) as [->|Hh].
        -- rewrite lookup_delete_eq in Hd. discriminate.
        -- rewrite lookup_delete_ne in Hd by done. by apply Hinj in Hd.
    + rewrite lookup_delete_ne by done. rewrite (inv_heap _ _ HI). split.
      * intros [h Hh]. exists h. rewrite lookup_delete_ne; [done|].
        intros ->. congruence.
      * intros [h Hd]. destruct (decide (h = this)) as [->|Hh].
        -- rewrite lookup_delete_eq in Hd. discriminate.
        -- rewrite lookup_delete_ne in Hd by done. eauto.
  - intros n obj key r. destruct (decide (n = node)) as [->|Hn].
    + rewrite lookup_delete_eq. discriminate.
    + rewrite lookup_delete_ne by done. apply (inv_records _ _ HI).
Qed.

Lemma after_interest_lookup k key v node obj key' :
  after_interest k key v node obj !! key'
  = if decide (key' = key)
    then (if negb v && negb (any_interest (written k key v node obj))
          then None else Some (written k key v node obj))
    else obj !! key'.
Proof.
  unfold after_interest. fold (written k key v node obj).
  destruct (negb v && negb (any_interest _)); case_decide; subst.
  - apply lookup_delete_eq.
  - by apply lookup_delete_ne.
  - apply lookup_insert_eq.
  - by apply lookup_insert_ne.
Qed.

Lemma flag_set_flag k v x : flag k (set_flag k v x) = v.
Proof. by destruct k. Qed.

Lemma descriptor_set_flag k v x : descriptor (set_flag k v x) = descriptor x.
Proof. by destruct k. Qed.

Lemma any_interest_flag k r : flag k (fileDescriptor r) = true -> any_interest r = true.
Proof.
  unfold any_interest. destruct k; cbn; intros ->; rewrite ?orb_true_r; reflexivity.
Qed.

Lemma written_fields k key v node obj :
  (∀ r, obj !! key = Some r -> fd r = key ∧ fileHandlerSm r = node) ->
  fd (written k key v node obj) = key ∧
  descriptor (fileDescriptor (written k key v node obj)) = key ∧
  fileHandlerSm (written k key v node obj) = node ∧
  flag k (fileDescriptor (written k key v node obj)) = v.
Proof.
  intros Hobj. unfold written, served.
  destruct (obj !! key) as [r|]; cbn.
  - destruct (Hobj r eq_refl) as [-> ->].
    rewrite descriptor_set_flag, flag_set_flag. done.
  - rewrite descriptor_set_flag, flag_set_flag. done.
Qed.

Lemma Inv_interest g st k this key v node obj :
  Inv g st ->
  g !! this = Some node ->
  heap st !! node = Some obj ->
  Inv g (with_heap st (<[node := after_interest k key v node obj]> (heap st))).
Proof.
  intros HI Hg Hobj.
  split; cbn.
  - apply (inv_forward _ _ HI).
  - apply (inv_reverse _ _ HI).
  - apply (inv_nonnull _ _ HI).
  - intros n. rewrite <- (inv_heap _ _ HI).
    destruct (decide (n = node)) as [->|Hn].
    + rewrite lookup_insert_eq, Hobj. split; eauto.
    + by rewrite lookup_insert_ne.
  - intros n obj' key' r. destruct (decide (n = node)) as [->|Hn].
    + rewrite lookup_insert_eq. intros [= <-].
      rewrite after_interest_lookup. case_decide as Hk; subst.
      * destruct (written_fields k key v node obj) as (Hfd & Hd & Hown & Hflag).
        { intros r0 Hr0. destruct (inv_records _ _ HI _ _ _ _ Hobj Hr0) as (? & ? & ? & ?).
          done. }
        destruct v; cbn [negb andb].
        -- intros [= <-]. repeat split; try done.
           by apply (any_interest_flag k).
        -- destruct (any_interest (written k key false node obj)) eqn:Hany; cbn [negb].
           ++ intros [= <-]. done.
           ++ discriminate.
      * apply (inv_records _ _ HI _ _ _ _ Hobj).
    + rewrite lookup_insert_ne by done. apply (inv_records _ _ HI).
Qed.

Lemma Inv_registered g st h node :
  Inv g st -> g !! h = Some node ->
  fileHandlerToFileHandlerSm st !! h = Some node ∧ node ≠ null ∧
  ∃ obj, heap st !! node = Some obj.
Proof.
  intros HI Hg. split; [by rewrite (inv_forward _ _ HI)|].
  split; [by destruct (inv_nonnull _ _ HI _ _ Hg)|].
  apply (inv_heap _ _ HI). eauto.
Qed.

Lemma interest_is_Inv g st k this key v node obj :
  Inv g st -> g !! this = Some node -> heap st !! node = Some obj ->
  interest_is k this key v st
  = Returned tt (with_heap st (<[node := after_interest k key v node obj]> (heap st))).
Proof.
  intros HI Hg Hobj.
  destruct (Inv_registered _ _ _ _ HI Hg) as (Hh & Hnn & _).
  apply interest_is_eval; try done.
  intros _ r Hr. by destruct (inv_records _ _ HI _ _ _ _ Hobj Hr) as (? & ? & ? & ?).
Qed.

Lemma perform_Inv g st c :
  Inv g st -> permitted g c = true ->
  ∃ st', perform c st = Returned tt st' ∧ Inv (owners_step g c) st'.
Proof.
  intros HI Hp. destruct c as [this node|this|k this key v]; cbn [perform owners_step].
  - eexists. split; [apply file_handler_ctor_eval|]. by apply Inv_construct.
  - cbn in Hp. apply bool_decide_eq_true in Hp as [node Hg].
    destruct (Inv_registered _ _ _ _ HI Hg) as (Hh & _ & _).
    eexists. split; [by apply file_handler_dtor_eval|]. by apply Inv_destroy.
  - cbn in Hp. apply bool_decide_eq_true in Hp as [node Hg].
    destruct (Inv_registered _ _ _ _ HI Hg) as (Hh & Hnn & obj & Hobj).
    eexists. split; [by eapply interest_is_Inv|]. by eapply Inv_interest.
Qed.

Lemma run_Inv t : ∀ g st,
  Inv g st -> well_formed_from g t = true ->
  ∃ st', run t st = Returned tt st' ∧ Inv (owners_from g t) st'.
Proof.
  induction t as [|c t IH]; intros g st HI Hwf; cbn in *.
  - eexists. split; [reflexivity|done].
  - apply andb_true_iff in Hwf as [Hp Hwf].
    destruct (perform_Inv _ _ _ HI Hp) as (st1 & Hrun1 & HI1).
    destruct (IH _ _ HI1 Hwf) as (st2 & Hrun2 & HI2).
    exists st2. split; [|done].
    erewrite bind_returned; eauto.
Qed.

Lemma well_formed_run t :
  well_formed t = true ->
  ∃ st, run t initial = Returned tt st ∧ Inv (owners t) st.
Proof. intros Hwf. apply run_Inv; [apply Inv_initial|done]. Qed.

Lemma reachable_Inv st : reachable st -> ∃ g, Inv g st.
Proof.
  intros (t & Hwf & Hrun).
  destruct (well_formed_run t Hwf) as (st' & Hrun' & HI).
  rewrite Hrun in Hrun'. injection Hrun' as <-. eauto.
Qed.

Lemma descriptor_states_eq st h node obj :
  fileHandlerToFileHandlerSm st !! h = Some node ->
  heap st !! node = Some obj ->
  descriptor_states st h = obj.
Proof. unfold descriptor_states. by intros -> ->. Qed.

Lemma descriptor_states_with_heap st h node obj hp :
  fileHandlerToFileHandlerSm st !! h = Some node ->
  descriptor_states (with_heap st (<[node := obj]> hp)) h = obj.
Proof.
  intros Hh. unfold descriptor_states; cbn. by rewrite Hh, lookup_insert_eq.
Qed.

Lemma with_heap_id st obj node :
  heap st !! node = Some obj -> with_heap st (<[node := obj]> (heap st)) = st.
Proof.
  intros Hobj. destruct st as [fwd rev hp]; unfold with_heap; cbn in *.
  by rewrite insert_id.
Qed.

Lemma with_heap_again st node a b :
  with_heap (with_heap st (<[node := a]> (heap st)))
            (<[node := b]> (heap (with_heap st (<[node := a]> (heap st)))))
  = with_heap st (<[node := b]> (heap st)).
Proof.
  unfold with_heap; cbn [heap fileHandlerToFileHandlerSm fileHandlerSmToFileHandler].
  by rewrite insert_insert_eq.
Qed.

Lemma set_descriptor_id d x : descriptor x = d -> set_descriptor d x = x.
Proof. destruct x; cbn. by intros ->. Qed.

Lemma set_flag_id k v x : flag k x = v -> set_flag k v x = x.
Proof. destruct x, k; cbn; by intros ->. Qed.

Lemma set_flag_set_flag k v w x : set_flag k v (set_flag k w x) = set_flag k v x.
Proof. by destruct k. Qed.

Lemma with_fileDescriptor_id r : with_fileDescriptor r (fileDescriptor r) = r.
Proof. by destruct r. Qed.

Lemma served_descriptor key node obj :
  descriptor (fileDescriptor (served key node obj)) = key.
Proof. unfold served. by destruct (obj !! key). Qed.

(** On a record that already carries its key as descriptor number, the
    setter writes the record with flag [k] replaced. *)
Lemma written_existing k key v node obj r :
  obj !! key = Some r -> descriptor (fileDescriptor r) = key ->
  written k key v node obj = with_fileDescriptor r (set_flag k v (fileDescriptor r)).
Proof.
  intros Hr Hd. unfold written, served. rewrite Hr.
  rewrite (set_descriptor_id _ _ Hd), with_fileDescriptor_id. reflexivity.
Qed.

Lemma written_fresh k key v node obj :
  obj !! key = None ->
  written k key v node obj
  = {| fd := key;
       fileDescriptor := set_flag k v {| descriptor := key;
                                         notifyOnReadable := false;
                                         notifyOnWritable := false;
                                         notifyOnException := false |};
       fileHandlerSm := node |}.
Proof. intros Hr. unfold written, served. rewrite Hr. reflexivity. Qed.

Lemma written_again k key v node obj obj' :
  obj' !! key = Some (written k key v node obj) ->
  written k key v node obj' = written k key v node obj.
Proof.
  intros Hr.
  rewrite (written_existing _ _ _ _ _ _ Hr).
  - unfold written at 2; cbn [fileDescriptor with_fileDescriptor].
    rewrite set_flag_set_flag. reflexivity.
  - unfold written; cbn [fileDescriptor with_fileDescriptor].
    rewrite descriptor_set_flag. apply served_descriptor.
Qed.

Lemma after_interest_idempotent k key v node obj :
  after_interest k key v node (after_interest k key v node obj)
  = after_interest k key v node obj.
Proof.
  apply map_eq. intros key'.
  rewrite (after_interest_lookup k key v node (after_interest k key v node obj)).
  rewrite !(after_interest_lookup k key v node obj).
  case_decide as Hk; [subst key'|reflexivity].
  pose proof (after_interest_lookup k key v node obj key) as HA.
  rewrite decide_True in HA by done.
  destruct (negb v && negb (any_interest (written k key v node obj))) eqn:Hc.
  - apply andb_true_iff in Hc as [Hv _]. apply negb_true_iff in Hv. subst v.
    rewrite (written_fresh _ _ _ _ _ HA). by destruct k.
  - rewrite (written_again _ _ _ _ _ _ HA), Hc. reflexivity.
Qed.

(** Clearing an interest that is not set, on a node whose records all carry
    some interest, leaves the node's collection as it was. *)
Lemma after_interest_clear_noop k key node obj :
  (∀ r, obj !! key = Some r ->
        descriptor (fileDescriptor r) = key ∧ any_interest r = true ∧
        flag k (fileDescriptor r) = false) ->
  after_interest k key false node obj = obj.
Proof.
  intros Hrec. apply map_eq. intros key'.
  rewrite after_interest_lookup. case_decide as Hk; [subst key'|reflexivity].
  destruct (obj !! key) as [r|] eqn:Hr.
  - destruct (Hrec r eq_refl) as (Hd & Hany & Hflag).
    rewrite (written_existing _ _ _ _ _ _ Hr Hd).
    rewrite (set_flag_id _ _ _ Hflag), with_fileDescriptor_id, Hany. reflexivity.
  - rewrite (written_fresh _ _ _ _ _ Hr). by destruct k.
Qed.

Lemma any_interest_cleared k r :
  any_interest (with_fileDescriptor r (set_flag k false (fileDescriptor r)))
  = other_interest k (fileDescriptor r).
Proof.
  destruct r as [? [d a b c] ?]. by destruct k, a, b, c.
Qed.

Lemma descriptor_states_Some st h key r :
  descriptor_states st h !! key = Some r ->
  ∃ node obj, fileHandlerToFileHandlerSm st !! h = Some node ∧
              heap st !! node = Some obj ∧ obj !! key = Some r.
Proof.
  unfold descriptor_states.
  destruct (fileHandlerToFileHandlerSm st !! h) as [node|]; [|by rewrite lookup_empty].
  destruct (heap st !! node) as [obj|] eqn:Hobj; cbn; [|by rewrite lookup_empty].
  intros Hk. exists node, obj. done.
Qed.

Lemma reachable_registered st h node :
  reachable st ->
  fileHandlerToFileHandlerSm st !! h = Some node ->
  ∃ g obj, Inv g st ∧ g !! h = Some node ∧ node ≠ null ∧
           heap st !! node = Some obj ∧ descriptor_states st h = obj.
Proof.
  intros Hr Hh. destruct (reachable_Inv st Hr) as [g HI].
  assert (Hg : g !! h = Some node) by (by rewrite <- (inv_forward _ _ HI)).
  destruct (Inv_registered _ _ _ _ HI Hg) as (_ & Hnn & obj & Hobj).
  exists g, obj. do 4 (split; [done|]).
  by apply (descriptor_states_eq _ _ node).
Qed.

Lemma Inv_exists_iff_interest g st h key :
  Inv g st ->
  is_Some (descriptor_states st h !! key) ↔ ∃ k, current_interest st h key k = true.
Proof.
  intros HI. unfold current_interest. split.
  - intros [r Hr]. rewrite Hr.
    destruct (descriptor_states_Some _ _ _ _ Hr) as (node & obj & _ & Hobj & Hk).
    destruct (inv_records _ _ HI _ _ _ _ Hobj Hk) as (_ & _ & _ & Hany).
    unfold any_interest in Hany.
    destruct (notifyOnReadable (fileDescriptor r)) eqn:HR; [by exists Readable|].
    destruct (notifyOnWritable (fileDescriptor r)) eqn:HW; [by exists Writable|].
    destruct (notifyOnException (fileDescriptor r)) eqn:HE; [by exists ExceptionPending|].
    discriminate.
  - intros [k Hk]. destruct (descriptor_states st h !! key); [eauto|discriminate].
Qed.

Lemma well_formed_from_app t t' : ∀ g,
  well_formed_from g (t ++ t') = true ->
  well_formed_from g t = true ∧ well_formed_from (owners_from g t) t' = true.
Proof.
  induction t as [|c t IH]; intros g; cbn; [done|].
  intros [Hp Hwf]%andb_true_iff. destruct (IH _ Hwf) as [H1 H2].
  by rewrite Hp, H1.
Qed.

Lemma owners_from_app g t t' :
  owners_from g (t ++ t') = owners_from (owners_from g t) t'.
Proof. apply foldl_app. Qed.

Lemma owners_from_not_reused node t : ∀ g,
  (∀ h, g !! h ≠ Some node) ->
  (∀ h, Construct h node ∉ t) ->
  ∀ h, owners_from g t !! h ≠ Some node.
Proof.
  induction t as [|c t IH]; intros g Hg Ht; cbn; [done|].
  apply IH.
  - intros h. destruct c as [this n|this|]; cbn; [| |done].
    + destruct (decide (h = this)) as [->|Hne].
      * rewrite lookup_insert_eq. intros [= ->]. apply (Ht this). left.
      * by rewrite lookup_insert_ne.
    + destruct (decide (h = this)) as [->|Hne].
      * by rewrite lookup_delete_eq.
      * by rewrite lookup_delete_ne.
  - intros h Hin. apply (Ht h). by right.
Qed.

Lemma handle_miss k self st :
  fileHandlerSmToFileHandler st !! fileHandlerSm self = None ->
  handle k self st
  = AssertionFailed
      {| fileHandlerToFileHandlerSm := fileHandlerToFileHandlerSm st;
         fileHandlerSmToFileHandler :=
           <[fileHandlerSm self := null]> (fileHandlerSmToFileHandler st);
         heap := heap st |}.
Proof.
  intros Hmiss.
  destruct k; unfold handle, handleReadable, handleWritable, handleExceptionPending;
    (erewrite bind_returned; last first;
     [unfold fileHandlerSmToFileHandler_index, map_index; rewrite Hmiss; reflexivity|]);
    reflexivity.
Qed.

Lemma handle_hit k self st fh :
  fileHandlerSmToFileHandler st !! fileHandlerSm self = Some fh ->
  handle k self st
  = if bool_decide (fh = null) then AssertionFailed st
    else Returned (callback k fh (fd self)) st.
Proof.
  intros Hhit. destruct st as [fwd rev hp]; cbn in Hhit.
  destruct k; unfold handle, handleReadable, handleWritable, handleExceptionPending;
    (erewrite bind_returned; last first;
     [unfold fileHandlerSmToFileHandler_index, map_index; cbn; rewrite Hhit; reflexivity|]);
    unfold bind, assert; destruct (bool_decide (fh = null)); reflexivity.
Qed.

(** ** The registry *)

(** C1. After every run of constructions, destructions and interest calls
    that C++ permits, the run returns and the two registry maps are exact
    inverses of each other; the handler-to-node map holds exactly the
    handlers that are alive, and each of them has exactly one node, which is
    allocated and belongs to no other handler. *)
Theorem registry_maps_exact_inverses t :
  well_formed t = true ->
  ∃ st, run t initial = Returned tt st ∧
    (∀ h node, fileHandlerToFileHandlerSm st !! h = Some node
               ↔ fileHandlerSmToFileHandler st !! node = Some h) ∧
    fileHandlerToFileHandlerSm st = owners t ∧
    (∀ h, is_Some (owners t !! h) ->
       ∃ node, fileHandlerToFileHandlerSm st !! h = Some node ∧
               is_Some (heap st !! node) ∧
               ∀ h', fileHandlerToFileHandlerSm st !! h' = Some node -> h' = h) ∧
    (∀ node, is_Some (heap st !! node) ->
       ∃ h, fileHandlerToFileHandlerSm st !! h = Some node).
Proof.
  intros Hwf. destruct (well_formed_run t Hwf) as (st & Hrun & HI).
  exists st. split; [done|].
  pose proof (inv_forward _ _ HI) as Hfwd.
  repeat split.
  - rewrite Hfwd. apply (inv_reverse _ _ HI).
  - rewrite Hfwd. apply (inv_reverse _ _ HI).
  - done.
  - intros h [node Hg]. exists node. rewrite Hfwd. split; [done|]. split.
    + apply (inv_heap _ _ HI). eauto.
    + intros h' Hg'. eapply Inv_injective; eauto.
  - intros node Hn. rewrite Hfwd. by apply (inv_heap _ _ HI).
Qed.

(** ** The interest setters *)

(** C2. On a registered handler with a DescriptorState for the descriptor,
    a setter called with [interest = false] returns; if neither of the two
    other flags is set the record is removed from the handler's mapping, and
    if one of them is set the record stays, with the cleared flag false.
    No other descriptor's record is touched. *)
Theorem eager_cleanup st h key r k :
  reachable st ->
  descriptor_states st h !! key = Some r ->
  ∃ st', interest_is k h key false st = Returned tt st' ∧
    (other_interest k (fileDescriptor r) = false ->
       descriptor_states st' h !! key = None) ∧
    (other_interest k (fileDescriptor r) = true ->
       descriptor_states st' h !! key
       = Some (with_fileDescriptor r (set_flag k false (fileDescriptor r)))) ∧
    (∀ key', key' ≠ key ->
       descriptor_states st' h !! key' = descriptor_states st h !! key').
Proof.
  intros Hreach Hr.
  destruct (descriptor_states_Some _ _ _ _ Hr) as (node & obj0 & Hh & _ & _).
  destruct (reachable_registered _ _ _ Hreach Hh) as (g & obj & HI & Hg & Hnn & Hobj & Hds).
  rewrite Hds in *.
  destruct (inv_records _ _ HI _ _ _ _ Hobj Hr) as (_ & Hd & _ & _).
  eexists. split; [by eapply interest_is_Inv|].
  rewrite (descriptor_states_with_heap _ _ _ _ _ Hh).
  pose proof (after_interest_lookup k key false node obj) as Hlk.
  rewrite (written_existing _ _ _ _ _ _ Hr Hd), any_interest_cleared in Hlk.
  repeat split.
  - intros Ho. by rewrite Hlk, decide_True, Ho.
  - intros Ho. by rewrite Hlk, decide_True, Ho.
  - intros key' Hne. by rewrite Hlk, decide_False.
Qed.

(** C3. On a registered handler with no DescriptorState for the descriptor,
    any of the three setters called with [interest = true] returns and adds
    exactly one record to the handler's mapping, under the descriptor, with
    the descriptor number as its key and its descriptor field, the requested
    flag set and the handler's node as owner.  The same call made again
    changes nothing, and no later setter call with [interest = true] on the
    descriptor adds a record. *)
Theorem lazy_creation st h node key k :
  reachable st ->
  fileHandlerToFileHandlerSm st !! h = Some node ->
  descriptor_states st h !! key = None ->
  ∃ st', interest_is k h key true st = Returned tt st' ∧
    descriptor_states st' h
    = <[key := {| fd := key;
                  fileDescriptor :=
                    set_flag k true {| descriptor := key;
                                       notifyOnReadable := false;
                                       notifyOnWritable := false;
                                       notifyOnException := false |};
                  fileHandlerSm := node |}]> (descriptor_states st h) ∧
    size (descriptor_states st' h) = S (size (descriptor_states st h)) ∧
    interest_is k h key true st' = Returned tt st' ∧
    (∀ k', ∃ st'', interest_is k' h key true st' = Returned tt st'' ∧
                   size (descriptor_states st'' h) = S (size (descriptor_states st h))).
Proof.
  intros Hreach Hh Hnone.
  destruct (reachable_registered _ _ _ Hreach Hh) as (g & obj & HI & Hg & Hnn & Hobj & Hds).
  rewrite Hds in *.
  set (st' := with_heap st (<[node := after_interest k key true node obj]> (heap st))).
  assert (Hrun : interest_is k h key true st = Returned tt st') by (by eapply interest_is_Inv).
  assert (HI' : Inv g st') by (by eapply Inv_interest).
  assert (Hobj' : heap st' !! node = Some (after_interest k key true node obj)).
  { apply lookup_insert_eq. }
  assert (Hds' : descriptor_states st' h = after_interest k key true node obj).
  { by apply descriptor_states_with_heap. }
  assert (Hnew : after_interest k key true node obj
                 = <[key := written k key true node obj]> obj) by reflexivity.
  assert (Hsize : size (after_interest k key true node obj) = S (size obj)).
  { rewrite Hnew. by apply map_size_insert_None. }
  exists st'. split; [done|]. rewrite Hds'.
  split; [by rewrite Hnew, (written_fresh _ _ _ _ _ Hnone)|].
  split; [done|]. split.
  - rewrite (interest_is_Inv _ _ k _ key true _ _ HI' Hg Hobj').
    unfold st'. by rewrite with_heap_again, after_interest_idempotent.
  - intros k'. eexists. split; [exact (interest_is_Inv g st' k' h key true node _ HI' Hg Hobj')|].
    rewrite descriptor_states_with_heap by done.
    change (after_interest k' key true node (after_interest k key true node obj))
      with (<[key := written k' key true node (after_interest k key true node obj)]>
              (after_interest k key true node obj)).
    rewrite map_size_insert_Some; [done|].
    rewrite Hnew, lookup_insert_eq. eauto.
Qed.

(** C4. In every state a run leaves between two calls, and again after any
    further setter call has returned, a handler's mapping holds a
    DescriptorState for a descriptor if and only if one of the three
    interests on it is set. *)
Theorem descriptor_state_iff_interest st :
  reachable st ->
  (∀ h key, is_Some (descriptor_states st h !! key)
            ↔ ∃ k, current_interest st h key k = true) ∧
  (∀ k0 h0 key0 v, is_Some (fileHandlerToFileHandlerSm st !! h0) ->
     ∃ st', interest_is k0 h0 key0 v st = Returned tt st' ∧
       ∀ h key, is_Some (descriptor_states st' h !! key)
                ↔ ∃ k, current_interest st' h key k = true).
Proof.
  intros Hreach. split.
  - destruct (reachable_Inv st Hreach) as [g HI]. intros h key.
    by eapply Inv_exists_iff_interest.
  - intros k0 h0 key0 v [node Hh].
    destruct (reachable_registered _ _ _ Hreach Hh) as (g & obj & HI & Hg & Hnn & Hobj & Hds).
    eexists. split; [by eapply interest_is_Inv|].
    intros h key. eapply Inv_exists_iff_interest. by eapply Inv_interest.
Qed.

(** C5. On a registered handler, calling a setter twice in a row with the
    same descriptor and value leaves exactly the state that calling it once
    leaves; this holds for every value, so in particular for the flag's
    current one. *)
Theorem interest_setter_idempotent st h key k v :
  reachable st ->
  is_Some (fileHandlerToFileHandlerSm st !! h) ->
  ∃ st', interest_is k h key v st = Returned tt st' ∧
         (interest_is k h key v;; interest_is k h key v) st = Returned tt st'.
Proof.
  intros Hreach [node Hh].
  destruct (reachable_registered _ _ _ Hreach Hh) as (g & obj & HI & Hg & Hnn & Hobj & Hds).
  set (st' := with_heap st (<[node := after_interest k key v node obj]> (heap st))).
  assert (Hrun : interest_is k h key v st = Returned tt st') by (by eapply interest_is_Inv).
  assert (HI' : Inv g st') by (by eapply Inv_interest).
  assert (Hobj' : heap st' !! node = Some (after_interest k key v node obj)).
  { apply lookup_insert_eq. }
  exists st'. split; [done|].
  erewrite bind_returned; last exact Hrun.
  rewrite (interest_is_Inv _ _ k _ key v _ _ HI' Hg Hobj').
  unfold st'. by rewrite with_heap_again, after_interest_idempotent.
Qed.

(** C9. On a registered handler, a setter called with [interest = false]
    for an interest that is not set (the descriptor having a record or not)
    returns and leaves the whole state, and so the handler's mapping, as it
    was. *)
Theorem clearing_unset_interest_changes_nothing st h key k :
  reachable st ->
  is_Some (fileHandlerToFileHandlerSm st !! h) ->
  current_interest st h key k = false ->
  interest_is k h key false st = Returned tt st.
Proof.
  intros Hreach [node Hh] Hcur.
  destruct (reachable_registered _ _ _ Hreach Hh) as (g & obj & HI & Hg & Hnn & Hobj & Hds).
  unfold current_interest in Hcur. rewrite Hds in Hcur.
  rewrite (interest_is_Inv _ _ k _ key false _ _ HI Hg Hobj).
  rewrite after_interest_clear_noop; [by rewrite with_heap_id|].
  intros r Hr. rewrite Hr in Hcur.
  by destruct (inv_records _ _ HI _ _ _ _ Hobj Hr) as (_ & ? & _ & ?).
Qed.

(** ** Dispatch *)

(** C6. For a registered handler [h] and a DescriptorState in its node's
    mapping, each of the three notifications run on that record returns, the
    callback it makes is the one of its kind on [h] with the record's
    descriptor number, and the state is unchanged. *)
Theorem dispatch_reaches_owner st h key r k :
  reachable st ->
  descriptor_states st h !! key = Some r ->
  handle k r st = Returned (callback k h (descriptor (fileDescriptor r))) st.
Proof.
  intros Hreach Hr.
  destruct (descriptor_states_Some _ _ _ _ Hr) as (node & obj & Hh & Hobj & Hk).
  destruct (reachable_Inv st Hreach) as [g HI].
  assert (Hg : g !! h = Some node) by (by rewrite <- (inv_forward _ _ HI)).
  destruct (inv_records _ _ HI _ _ _ _ Hobj Hk) as (Hfd & Hd & Hown & _).
  destruct (inv_nonnull _ _ HI _ _ Hg) as [Hhn _].
  rewrite (handle_hit k r st h).
  - rewrite (bool_decide_eq_false_2 _ Hhn), Hfd, Hd. reflexivity.
  - rewrite Hown. by apply (inv_reverse _ _ HI).
Qed.

(** C7, as amended. Once handler [h] has been destroyed, and for as long as
    the address of its former node [node] has not been handed out again for a
    new node (the registry knows a node by its address only), a
    notification of any kind on any [FileDescriptorSm] that names [node] as
    its owner fails the assertion on the looked-up handler: the process
    aborts (with the null entry the lookup inserted) and no callback is made. *)
Theorem dispatch_after_destroy_aborts t h node t' :
  well_formed (t ++ Destroy h :: t') = true ->
  owners t !! h = Some node ->
  (∀ h', Construct h' node ∉ t') ->
  ∃ st, run (t ++ Destroy h :: t') initial = Returned tt st ∧
    ∀ k self, fileHandlerSm self = node ->
      handle k self st
      = AssertionFailed
          {| fileHandlerToFileHandlerSm := fileHandlerToFileHandlerSm st;
             fileHandlerSmToFileHandler := <[node := null]> (fileHandlerSmToFileHandler st);
             heap := heap st |}.
Proof.
  intros Hwf Hnode Hfresh.
  destruct (well_formed_run _ Hwf) as (st & Hrun & HI).
  destruct (well_formed_from_app _ _ _ Hwf) as [Hwft _].
  destruct (well_formed_run _ Hwft) as (st0 & _ & HI0).
  exists st. split; [done|].
  intros k self <-. apply handle_miss.
  destruct (fileHandlerSmToFileHandler st !! fileHandlerSm self) as [h'|] eqn:Hrev; [|done].
  exfalso. apply (inv_reverse _ _ HI) in Hrev.
  unfold owners in Hrev. rewrite owners_from_app in Hrev. cbn in Hrev.
  revert Hrev. apply owners_from_not_reused; [|done].
  intros h0. destruct (decide (h0 = h)) as [->|Hne].
  - by rewrite lookup_delete_eq.
  - rewrite lookup_delete_ne by done. intros Hg.
    apply Hne. eapply Inv_injective; eauto.
Qed.

(** C8, as amended. A notification of any kind, on any [FileDescriptorSm]
    and in any state, never touches the handler-to-node map or any node's
    descriptor mapping.  When the node it names has an entry in the
    node-to-handler map, that map is untouched too: the notification returns
    after the one callback on the handler found, in the state exactly as it
    found it (or, the entry being null, stops at the assertion in that same
    state).  When the node has no entry, the lookup enters the node with a
    null handler into the node-to-handler map, and the assertion then stops
    the process. *)
Theorem dispatch_mutates_only_on_miss k self st :
  handle k self st
  = match fileHandlerSmToFileHandler st !! fileHandlerSm self with
    | Some fh =>
        if bool_decide (fh = null) then AssertionFailed st
        else Returned (callback k fh (fd self)) st
    | None =>
        AssertionFailed
          {| fileHandlerToFileHandlerSm := fileHandlerToFileHandlerSm st;
             fileHandlerSmToFileHandler :=
               <[fileHandlerSm self := null]> (fileHandlerSmToFileHandler st);
             heap := heap st |}
    end.
Proof.
  destruct (fileHandlerSmToFileHandler st !! fileHandlerSm self) as [fh|] eqn:Hrev.
  - apply (handle_hit _ _ _ _ Hrev).
  - apply (handle_miss _ _ _ Hrev).
Qed.

(** ** Further properties: the collection of a node seen through its flags *)

#[local] Instance interest_kind_eq_dec : EqDecision interest_kind.
Proof. solve_decision. Defined.

(** What every record of a node's collection satisfies between two calls:
    it sits under its own descriptor number, names the node as owner and
    carries an interest. *)
Definition well_kept (node : N) (obj : gmap Z FileDescriptorSm) : Prop :=
  ∀ key r, obj !! key = Some r ->
    fd r = key ∧ descriptor (fileDescriptor r) = key ∧
    fileHandlerSm r = node ∧ any_interest r = true.

(** Interest [k] on descriptor [key] in a collection: false without a record. *)
Definition flags_at (obj : gmap Z FileDescriptorSm) (key : Z) (k : interest_kind) : bool :=
  match obj !! key with
  | Some r => flag k (fileDescriptor r)
  | None => false
  end.

Lemma Inv_well_kept g st node obj :
  Inv g st -> heap st !! node = Some obj -> well_kept node obj.
Proof. intros HI Hobj key r. apply (inv_records _ _ HI _ _ _ _ Hobj). Qed.

Lemma current_interest_flags_at st h node obj key k :
  fileHandlerToFileHandlerSm st !! h = Some node ->
  heap st !! node = Some obj ->
  current_interest st h key k = flags_at obj key k.
Proof.
  intros Hh Hobj. unfold current_interest, flags_at.
  by rewrite (descriptor_states_eq _ _ _ _ Hh Hobj).
Qed.

Lemma any_interest_false r :
  any_interest r = false -> ∀ k, flag k (fileDescriptor r) = false.
Proof.
  unfold any_interest. intros Hany k.
  apply orb_false_iff in Hany as [Hany He].
  apply orb_false_iff in Hany as [Hr Hw].
  by destruct k.
Qed.

Lemma written_flag k key v node obj k' :
  flag k' (fileDescriptor (written k key v node obj))
  = if decide (k' = k) then v else flags_at obj key k'.
Proof.
  unfold written, served, flags_at.
  destruct (obj !! key) as [r|]; case_decide as Hk; subst;
    cbn [fileDescriptor with_fileDescriptor]; rewrite ?flag_set_flag; try done.
  - by destruct k, k'.
  - by destruct k, k'.
Qed.

Lemma after_interest_flags k key v node obj key' k' :
  flags_at (after_interest k key v node obj) key' k'
  = if decide (key' = key ∧ k' = k) then v else flags_at obj key' k'.
Proof.
  unfold flags_at at 1. rewrite after_interest_lookup.
  destruct (decide (key' = key)) as [->|Hkey].
  - destruct (negb v && negb (any_interest (written k key v node obj))) eqn:Hc.
    + apply andb_true_iff in Hc as [Hv Hany].
      apply negb_true_iff in Hv, Hany. subst v.
      pose proof (any_interest_false _ Hany k') as Hk'.
      rewrite written_flag in Hk'.
      destruct (decide (k' = k)) as [->|Hne].
      * by rewrite decide_True.
      * by rewrite decide_False by (intros [_ ?]; done).
    + rewrite written_flag.
      destruct (decide (k' = k)) as [->|Hne].
      * by rewrite decide_True.
      * by rewrite decide_False by (intros [_ ?]; done).
  - rewrite decide_False by (intros [? _]; done). reflexivity.
Qed.

Lemma after_interest_well_kept k key v node obj :
  well_kept node obj -> well_kept node (after_interest k key v node obj).
Proof.
  intros Hwk key' r. rewrite after_interest_lookup.
  case_decide as Hk; [subst key'|apply Hwk].
  destruct (written_fields k key v node obj) as (Hfd & Hd & Hown & Hflag).
  { intros r0 Hr0. by destruct (Hwk _ _ Hr0) as (? & _ & ? & _). }
  destruct v; cbn [negb andb].
  - intros [= <-]. do 3 (split; [done|]). by apply (any_interest_flag k).
  - destruct (any_interest (written k key false node obj)) eqn:Hany; cbn [negb];
      [|discriminate].
    intros [= <-]. done.
Qed.

(** Two collections of the same node that are well kept and agree on every
    interest are the same collection. *)
Lemma well_kept_ext node obj1 obj2 :
  well_kept node obj1 -> well_kept node obj2 ->
  (∀ key k, flags_at obj1 key k = flags_at obj2 key k) ->
  obj1 = obj2.
Proof.
  intros H1 H2 Hflags. apply map_eq. intros key.
  pose proof (Hflags key) as Hk. unfold flags_at in Hk.
  destruct (obj1 !! key) as [r1|] eqn:Hr1, (obj2 !! key) as [r2|] eqn:Hr2.
  - destruct (H1 _ _ Hr1) as (Hf1 & Hd1 & Ho1 & _).
    destruct (H2 _ _ Hr2) as (Hf2 & Hd2 & Ho2 & _).
    pose proof (Hk Readable) as HR. pose proof (Hk Writable) as HW.
    pose proof (Hk ExceptionPending) as HE.
    destruct r1 as [f1 [d1 a1 b1 c1] o1], r2 as [f2 [d2 a2 b2 c2] o2].
    cbn in *. congruence.
  - destruct (H1 _ _ Hr1) as (_ & _ & _ & Hany).
    pose proof (Hk Readable) as HR. pose proof (Hk Writable) as HW.
    pose proof (Hk ExceptionPending) as HE.
    unfold any_interest in Hany. cbn in HR, HW, HE.
    rewrite HR, HW, HE in Hany. discriminate.
  - destruct (H2 _ _ Hr2) as (_ & _ & _ & Hany).
    pose proof (Hk Readable) as HR. pose proof (Hk Writable) as HW.
    pose proof (Hk ExceptionPending) as HE.
    unfold any_interest in Hany. cbn in HR, HW, HE.
    rewrite <- HR, <- HW, <- HE in Hany. discriminate.
  - reflexivity.
Qed.

Lemma after_interest_overwrite k key v1 v2 node obj :
  well_kept node obj ->
  after_interest k key v2 node (after_interest k key v1 node obj)
  = after_interest k key v2 node obj.
Proof.
  intros Hwk. apply (well_kept_ext node).
  - by do 2 apply after_interest_well_kept.
  - by apply after_interest_well_kept.
  - intros key' k'. rewrite !after_interest_flags. by case_decide.
Qed.

Lemma after_interest_commute k1 key1 v1 k2 key2 v2 node obj :
  well_kept node obj ->
  (key1, k1) ≠ (key2, k2) ->
  after_interest k2 key2 v2 node (after_interest k1 key1 v1 node obj)
  = after_interest k1 key1 v1 node (after_interest k2 key2 v2 node obj).
Proof.
  intros Hwk Hne. apply (well_kept_ext node).
  - by do 2 apply after_interest_well_kept.
  - by do 2 apply after_interest_well_kept.
  - intros key' k'. rewrite !after_interest_flags.
    repeat case_decide; try done.
    destruct_and!. subst. done.
Qed.

Lemma after_interest_current k key node obj :
  well_kept node obj ->
  after_interest k key (flags_at obj key k) node obj = obj.
Proof.
  intros Hwk. apply (well_kept_ext node).
  - by apply after_interest_well_kept.
  - done.
  - intros key' k'. rewrite after_interest_flags.
    case_decide as Hc; [|done]. by destruct Hc as [-> ->].
Qed.

Lemma bind_aborted {A B} (m : M A) (f : A -> M B) s s' :
  m s = AssertionFailed s' -> bind m f s = AssertionFailed s'.
Proof. unfold bind. intros ->. reflexivity. Qed.

Lemma interest_is_then g st h node obj k1 key1 v1 k2 key2 v2 :
  Inv g st -> g !! h = Some node -> heap st !! node = Some obj ->
  (interest_is k1 h key1 v1;; interest_is k2 h key2 v2) st
  = Returned tt (with_heap st
      (<[node := after_interest k2 key2 v2 node (after_interest k1 key1 v1 node obj)]>
         (heap st))).
Proof.
  intros HI Hg Hobj.
  erewrite bind_returned; last by eapply interest_is_Inv.
  erewrite (interest_is_Inv g); [|by eapply Inv_interest|done|apply lookup_insert_eq].
  by rewrite with_heap_again.
Qed.

Lemma Inv_null_free g st :
  Inv g st ->
  fileHandlerSmToFileHandler st !! null = None ∧ heap st !! null = None.
Proof.
  intros HI. split.
  - destruct (fileHandlerSmToFileHandler st !! null) as [h|] eqn:Hrev; [|done].
    apply (inv_reverse _ _ HI) in Hrev.
    by destruct (inv_nonnull _ _ HI _ _ Hrev).
  - destruct (heap st !! null) as [obj|] eqn:Hobj; [|done].
    destruct (proj1 (inv_heap _ _ HI null)) as [h Hg]; [eauto|].
    by destruct (inv_nonnull _ _ HI _ _ Hg).
Qed.

(** ** The registry: edge cases and round trips *)

(** X1. The destructor run on an address that is not registered (a second
    destruction, or an object that was never registered) returns and leaves
    the whole state as it was. *)
Theorem destroying_unregistered_handler_changes_nothing st this :
  reachable st ->
  fileHandlerToFileHandlerSm st !! this = None ->
  file_handler_dtor this st = Returned tt st.
Proof.
  intros Hreach Hh. destruct (reachable_Inv st Hreach) as [g HI].
  destruct (Inv_null_free _ _ HI) as [Hrev Hheap].
  by apply file_handler_dtor_unregistered.
Qed.

(** X2. Each of the three setters, called on a handler the registry does not
    hold, stops at [assert( fhSm )]: no callback, no record; the only trace
    is the null entry [operator[]] made for the handler. *)
Theorem setter_without_registration_aborts k h key v st :
  fileHandlerToFileHandlerSm st !! h = None ->
  interest_is k h key v st
  = AssertionFailed
      {| fileHandlerToFileHandlerSm := <[h := null]> (fileHandlerToFileHandlerSm st);
         fileHandlerSmToFileHandler := fileHandlerSmToFileHandler st;
         heap := heap st |}.
Proof.
  intros Hh.
  assert (Hget : get_file_descriptor_sm h key st
    = AssertionFailed
        {| fileHandlerToFileHandlerSm := <[h := null]> (fileHandlerToFileHandlerSm st);
           fileHandlerSmToFileHandler := fileHandlerSmToFileHandler st;
           heap := heap st |}).
  { unfold get_file_descriptor_sm.
    erewrite bind_returned; last first.
    { unfold fileHandlerToFileHandlerSm_index, map_index. rewrite Hh. reflexivity. }
    apply bind_aborted. reflexivity. }
  destruct k; apply bind_aborted, Hget.
Qed.

(** X3. Constructing a handler at a free address, with a node at a free
    address, and destroying it at once returns the state exactly as it was. *)
Theorem construct_destroy_round_trip st this node :
  fileHandlerToFileHandlerSm st !! this = None ->
  fileHandlerSmToFileHandler st !! node = None ->
  heap st !! node = None ->
  (file_handler_ctor this node;; file_handler_dtor this) st = Returned tt st.
Proof.
  intros Hh Hrev Hheap.
  erewrite bind_returned; last apply file_handler_ctor_eval.
  erewrite file_handler_dtor_eval; last apply lookup_insert_eq.
  destruct st as [fwd rev hp]; cbn in *.
  by rewrite !delete_insert_id.
Qed.


(** X11. When a run has destroyed every handler it constructed, nothing is
    left: both maps and the store of nodes are empty again. *)
Theorem no_state_left_after_teardown t :
  well_formed t = true ->
  owners t = ∅ ->
  run t initial = Returned tt initial.
Proof.
  intros Hwf Hown. destruct (well_formed_run t Hwf) as (st & Hrun & HI).
  rewrite Hrun. f_equal. rewrite Hown in HI.
  destruct st as [fwd rev hp]. unfold initial. f_equal.
  - apply (inv_forward _ _ HI).
  - apply map_empty. intros node.
    destruct (rev !! node) as [h|] eqn:Hrev; [|done].
    apply (inv_reverse _ _ HI) in Hrev. by rewrite lookup_empty in Hrev.
  - apply map_empty. intros node.
    destruct (hp !! node) as [obj|] eqn:Hobj; [|done].
    destruct (proj1 (inv_heap _ _ HI node)) as [h Hg]; [by eexists|].
    by rewrite lookup_empty in Hg.
Qed.

(** ** The setters: frame, flags and composition *)

(** X5. A setter call on a registered handler changes neither registry map,
    no other descriptor of the handler and no other handler's mapping. *)
Theorem setter_frame st h key k v :
  reachable st ->
  is_Some (fileHandlerToFileHandlerSm st !! h) ->
  ∃ st', interest_is k h key v st = Returned tt st' ∧
    fileHandlerToFileHandlerSm st' = fileHandlerToFileHandlerSm st ∧
    fileHandlerSmToFileHandler st' = fileHandlerSmToFileHandler st ∧
    (∀ key', key' ≠ key ->
       descriptor_states st' h !! key' = descriptor_states st h !! key') ∧
    (∀ h', h' ≠ h -> descriptor_states st' h' = descriptor_states st h').
Proof.
  intros Hreach [node Hh].
  destruct (reachable_registered _ _ _ Hreach Hh) as (g & obj & HI & Hg & Hnn & Hobj & Hds).
  eexists. split; [by eapply interest_is_Inv|].
  do 2 (split; [done|]). split.
  - intros key' Hne. rewrite (descriptor_states_with_heap _ _ _ _ _ Hh), Hds.
    by rewrite after_interest_lookup, decide_False.
  - intros h' Hne. unfold descriptor_states; cbn.
    destruct (fileHandlerToFileHandlerSm st !! h') as [node'|] eqn:Hh'; [|done].
    rewrite lookup_insert_ne; [done|].
    intros <-. apply Hne. rewrite (inv_forward _ _ HI) in Hh'.
    eapply Inv_injective; eauto.
Qed.

(** X6. A setter call sets the interest it names to the value given and
    leaves the two other interests on the descriptor as they were, also when
    the call creates or deletes the record. *)
Theorem setter_sets_one_flag st h key k v :
  reachable st ->
  is_Some (fileHandlerToFileHandlerSm st !! h) ->
  ∃ st', interest_is k h key v st = Returned tt st' ∧
    current_interest st' h key k = v ∧
    ∀ k', k' ≠ k -> current_interest st' h key k' = current_interest st h key k'.
Proof.
  intros Hreach [node Hh].
  destruct (reachable_registered _ _ _ Hreach Hh) as (g & obj & HI & Hg & Hnn & Hobj & Hds).
  eexists. split; [by eapply interest_is_Inv|].
  assert (Hcur : ∀ k', current_interest
      (with_heap st (<[node := after_interest k key v node obj]> (heap st))) h key k'
    = flags_at (after_interest k key v node obj) key k').
  { intros k'. by apply (current_interest_flags_at _ _ node); [|apply lookup_insert_eq]. }
  split.
  - rewrite Hcur, after_interest_flags. by rewrite decide_True.
  - intros k' Hne. rewrite Hcur, after_interest_flags.
    rewrite decide_False by (intros [_ ?]; done).
    symmetry. by apply (current_interest_flags_at _ _ node).
Qed.

(** X7. Two setter calls that differ in the handler, the descriptor or the
    interest commute: either order returns, and leaves the same state. *)
Theorem setters_commute st h1 key1 k1 v1 h2 key2 k2 v2 :
  reachable st ->
  is_Some (fileHandlerToFileHandlerSm st !! h1) ->
  is_Some (fileHandlerToFileHandlerSm st !! h2) ->
  (h1, key1, k1) ≠ (h2, key2, k2) ->
  ∃ st', (interest_is k1 h1 key1 v1;; interest_is k2 h2 key2 v2) st = Returned tt st' ∧
         (interest_is k2 h2 key2 v2;; interest_is k1 h1 key1 v1) st = Returned tt st'.
Proof.
  intros Hreach [node1 Hh1] [node2 Hh2] Hne.
  destruct (reachable_registered _ _ _ Hreach Hh1) as (g & obj1 & HI & Hg1 & _ & Hobj1 & _).
  assert (Hg2 : g !! h2 = Some node2) by (by rewrite <- (inv_forward _ _ HI)).
  destruct (Inv_registered _ _ _ _ HI Hg2) as (_ & _ & obj2 & Hobj2).
  destruct (decide (h1 = h2)) as [->|Hh].
  - assert (node1 = node2) as -> by congruence.
    assert (obj1 = obj2) as -> by congruence.
    eexists. split; [by eapply interest_is_then|].
    erewrite interest_is_then by done.
    rewrite (after_interest_commute k1 key1 v1 k2 key2 v2); [done| |congruence].
    by eapply Inv_well_kept.
  - assert (Hn : node1 ≠ node2).
    { intros ->. apply Hh. eapply Inv_injective; eauto. }
    eexists. split.
    + erewrite bind_returned; last by eapply interest_is_Inv.
      erewrite (interest_is_Inv g _ k2 h2 key2 v2 node2 obj2);
        [reflexivity|by eapply Inv_interest|done|].
      cbn [heap with_heap]. by rewrite lookup_insert_ne.
    + erewrite bind_returned; last by eapply interest_is_Inv.
      erewrite (interest_is_Inv g _ k1 h1 key1 v1 node1 obj1);
        [|by eapply Inv_interest|done|].
      * unfold with_heap; cbn [heap fileHandlerToFileHandlerSm fileHandlerSmToFileHandler].
        by rewrite insert_insert_ne.
      * cbn [heap with_heap]. by rewrite lookup_insert_ne.
Qed.

(** X8. Of two successive calls of the same setter on the same handler and
    descriptor, the later one decides: the state is the one the later call
    alone would have left. *)
Theorem last_setter_call_wins st h key k v1 v2 :
  reachable st ->
  is_Some (fileHandlerToFileHandlerSm st !! h) ->
  ∃ st', (interest_is k h key v1;; interest_is k h key v2) st = Returned tt st' ∧
         interest_is k h key v2 st = Returned tt st'.
Proof.
  intros Hreach [node Hh].
  destruct (reachable_registered _ _ _ Hreach Hh) as (g & obj & HI & Hg & Hnn & Hobj & Hds).
  eexists. split; [|by eapply interest_is_Inv].
  erewrite interest_is_then by done.
  rewrite after_interest_overwrite; [done|]. by eapply Inv_well_kept.
Qed.

(** X9. Asking again for an interest that is already set returns and leaves
    the whole state as it was. *)
Theorem reasserting_set_interest_changes_nothing st h key k :
  reachable st ->
  current_interest st h key k = true ->
  interest_is k h key true st = Returned tt st.
Proof.
  intros Hreach Hcur.
  assert (Hsome : ∃ r, descriptor_states st h !! key = Some r).
  { unfold current_interest in Hcur.
    destruct (descriptor_states st h !! key); [eauto|discriminate]. }
  destruct Hsome as [r Hr].
  destruct (descriptor_states_Some _ _ _ _ Hr) as (node & obj0 & Hh & _ & _).
  destruct (reachable_registered _ _ _ Hreach Hh) as (g & obj & HI & Hg & Hnn & Hobj & Hds).
  rewrite (current_interest_flags_at _ _ _ _ _ _ Hh Hobj) in Hcur.
  rewrite (interest_is_Inv _ _ k _ key true _ _ HI Hg Hobj).
  rewrite <- Hcur at 1.
  rewrite after_interest_current; [by rewrite with_heap_id|].
  by eapply Inv_well_kept.
Qed.

(** X10. Changing an interest and then setting it back to the value it had
    returns the state exactly as it was, records created or deleted on the
    way included. *)
Theorem change_and_restore_interest st h key k v :
  reachable st ->
  is_Some (fileHandlerToFileHandlerSm st !! h) ->
  (interest_is k h key v;; interest_is k h key (current_interest st h key k)) st
  = Returned tt st.
Proof.
  intros Hreach [node Hh].
  destruct (reachable_registered _ _ _ Hreach Hh) as (g & obj & HI & Hg & Hnn & Hobj & Hds).
  pose proof (Inv_well_kept _ _ _ _ HI Hobj) as Hwk.
  erewrite interest_is_then by done.
  rewrite after_interest_overwrite by done.
  rewrite (current_interest_flags_at _ _ _ _ _ _ Hh Hobj).
  rewrite after_interest_current by done.
  by rewrite with_heap_id.
Qed.

(** X13. [get_file_descriptor_sm] on a registered handler returns the
    pointer to a record under the descriptor in the handler's node.  The
    record carries the descriptor number; one that was there keeps its
    interests, key and owner, a new one has no interest set and the node as
    owner.  Nothing else changes. *)
Theorem get_file_descriptor_sm_serves_record st h node obj key :
  fileHandlerToFileHandlerSm st !! h = Some node ->
  node ≠ null ->
  heap st !! node = Some obj ->
  ∃ st' r, get_file_descriptor_sm h key st = Returned (node, key) st' ∧
    fileHandlerToFileHandlerSm st' = fileHandlerToFileHandlerSm st ∧
    fileHandlerSmToFileHandler st' = fileHandlerSmToFileHandler st ∧
    descriptor_states st' h !! key = Some r ∧
    descriptor (fileDescriptor r) = key ∧
    (∀ k, flag k (fileDescriptor r) = flags_at obj key k) ∧
    (∀ r0, obj !! key = Some r0 -> fd r = fd r0 ∧ fileHandlerSm r = fileHandlerSm r0) ∧
    (obj !! key = None -> fd r = key ∧ fileHandlerSm r = node) ∧
    (∀ key', key' ≠ key -> descriptor_states st' h !! key' = obj !! key') ∧
    (∀ node', node' ≠ node -> heap st' !! node' = heap st !! node').
Proof.
  intros Hh Hnn Hobj.
  exists (with_heap st (<[node := <[key := served key node obj]> obj]> (heap st))),
         (served key node obj).
  split; [by apply get_file_descriptor_sm_eval|].
  do 2 (split; [done|]).
  rewrite (descriptor_states_with_heap _ _ _ _ _ Hh).
  split; [apply lookup_insert_eq|].
  split; [apply served_descriptor|].
  unfold served, flags_at.
  destruct (obj !! key) as [r0|] eqn:Hr0; cbn.
  - split; [by intros []|]. split; [by intros ? [= <-]|]. split; [done|].
    split; [intros key' Hne; by rewrite lookup_insert_ne|].
    intros node' Hne. by rewrite lookup_insert_ne.
  - split; [by intros []|]. split; [done|]. split; [done|].
    split; [intros key' Hne; by rewrite lookup_insert_ne|].
    intros node' Hne. by rewrite lookup_insert_ne.
Qed.

(** X14. [maybeCleanupAfterFileDescriptor] on a node: for a descriptor
    without a record it fails [assert( fdSm )] and leaves the state as it
    is; for one with a record it returns, having removed the record exactly
    when none of the three interests is set. *)
Theorem cleanup_removes_only_idle_records st node obj key :
  heap st !! node = Some obj ->
  maybeCleanupAfterFileDescriptor node key st
  = match obj !! key with
    | None => AssertionFailed st
    | Some r =>
        Returned tt (if any_interest r then st
                     else with_heap st (<[node := delete key obj]> (heap st)))
    end.
Proof.
  intros Hobj. destruct (obj !! key) as [r|] eqn:Hr.
  - rewrite (maybeCleanupAfterFileDescriptor_eval _ _ _ _ _ Hobj Hr).
    by destruct (any_interest r).
  - unfold maybeCleanupAfterFileDescriptor, fileDescriptorSm.
    erewrite bind_returned; last first.
    { erewrite bind_returned; last by apply load_eval. rewrite Hr. reflexivity. }
    reflexivity.
Qed.

(** ** Dispatch looks at the node only *)

(** X12. A notification is routed by the owner the [FileDescriptorSm] names,
    and by nothing else: whenever that node belongs to a registered handler,
    the handler's callback of the notification's kind is called with the
    object's [fd()], whether or not the handler's mapping still holds a record
    for that descriptor or the interest notified is set; the state is
    unchanged. *)
Theorem dispatch_routes_by_node_only st h node self k :
  reachable st ->
  fileHandlerToFileHandlerSm st !! h = Some node ->
  fileHandlerSm self = node ->
  handle k self st = Returned (callback k h (fd self)) st.
Proof.
  intros Hreach Hh <-.
  destruct (reachable_Inv st Hreach) as [g HI].
  assert (Hg : g !! h = Some (fileHandlerSm self)) by (by rewrite <- (inv_forward _ _ HI)).
  destruct (inv_nonnull _ _ HI _ _ Hg) as [Hhn _].
  rewrite (handle_hit k self st h); [|by apply (inv_reverse _ _ HI)].
  by rewrite (bool_decide_eq_false_2 _ Hhn).
Qed.


(** X16. After a setter call with [interest = true] on a registered handler,
    the handler's mapping holds a record for the descriptor, and a
    notification of any of the three kinds on that record calls the handler's
    callback of that kind with the descriptor number. *)
Theorem interest_then_dispatch st h key k :
  reachable st ->
  is_Some (fileHandlerToFileHandlerSm st !! h) ->
  ∃ st' r, interest_is k h key true st = Returned tt st' ∧
    descriptor_states st' h !! key = Some r ∧
    ∀ k', handle k' r st' = Returned (callback k' h key) st'.
Proof.
  intros Hreach [node Hh].
  destruct (reachable_registered _ _ _ Hreach Hh) as (g & obj & HI & Hg & Hnn & Hobj & Hds).
  set (st' := with_heap st (<[node := after_interest k key true node obj]> (heap st))).
  assert (HI' : Inv g st') by (by eapply Inv_interest).
  assert (Hobj' : heap st' !! node = Some (after_interest k key true node obj)).
  { apply lookup_insert_eq. }
  assert (Hr : after_interest k key true node obj !! key
               = Some (written k key true node obj)).
  { by rewrite after_interest_lookup, decide_True. }
  exists st', (written k key true node obj).
  split; [by eapply interest_is_Inv|].
  split; [unfold st'; by rewrite (descriptor_states_with_heap _ _ _ _ _ Hh)|].
  intros k'.
  destruct (inv_records _ _ HI' _ _ _ _ Hobj' Hr) as (Hfd & _ & Hown & _).
  destruct (inv_nonnull _ _ HI _ _ Hg) as [Hhn _].
  rewrite (handle_hit k' _ st' h).
  - by rewrite (bool_decide_eq_false_2 _ Hhn), Hfd.
  - rewrite Hown. by apply (inv_reverse _ _ HI').
Qed.

End Tac.

(** ** The concrete run, and the theorems applied to it *)

Lemma demo_run : run 0 demo initial = Returned tt demo_state.
Proof. vm_compute. reflexivity. Qed.

Lemma demo_reachable : reachable 0 demo_state.
Proof. exists demo. split; [reflexivity|apply demo_run]. Qed.

(** The scenario of one handler and one descriptor: interest in writing on
    descriptor 5 creates the record, withdrawing it deletes the record, and
    destroying the handler empties the registry. *)
Example scenario_interest_set :
  run 0 [Construct 1 10; SetInterest Writable 1 5 true] initial
  = Returned tt
      {| fileHandlerToFileHandlerSm := {[ 1%N := 10%N ]};
         fileHandlerSmToFileHandler := {[ 10%N := 1%N ]};
         heap := {[ 10%N :=
           {[ 5%Z := {| fd := 5;
                        fileDescriptor := {| descriptor := 5;
                                             notifyOnReadable := false;
                                             notifyOnWritable := true;
                                             notifyOnException := false |};
                        fileHandlerSm := 10 |} ]} ]} |}.
Proof. vm_compute. reflexivity. Qed.

Example scenario_interest_withdrawn :
  run 0 [Construct 1 10; SetInterest Writable 1 5 true;
         SetInterest Writable 1 5 false] initial
  = Returned tt
      {| fileHandlerToFileHandlerSm := {[ 1%N := 10%N ]};
         fileHandlerSmToFileHandler := {[ 10%N := 1%N ]};
         heap := {[ 10%N := ∅ ]} |}.
Proof. vm_compute. reflexivity. Qed.

Example scenario_handler_destroyed :
  run 0 [Construct 1 10; SetInterest Writable 1 5 true;
         SetInterest Writable 1 5 false; Destroy 1] initial
  = Returned tt initial.
Proof. vm_compute. reflexivity. Qed.

(** A setter on a handler that is not registered stops at [assert( fhSm )],
    after [operator[]] has entered the handler with a null node. *)
Example interest_on_unregistered_handler :
  read_interest_is 0 3 7 true initial
  = AssertionFailed
      {| fileHandlerToFileHandlerSm := {[ 3%N := null ]};
         fileHandlerSmToFileHandler := ∅;
         heap := ∅ |}.
Proof. vm_compute. reflexivity. Qed.

(** The registry knows a node by its address only: when the address of a
    freed node is handed out again, a notification that names it is routed to
    the new owner. *)
Example reused_address_routes_to_new_owner :
  (run 0 [Construct 1 10; Destroy 1; Construct 2 10];;
   handleReadable {| fd := 7;
                     fileDescriptor := FileDescriptorIs 7 "FileDescriptor";
                     fileHandlerSm := 10 |}) initial
  = Returned (on_readable 2 7)
      {| fileHandlerToFileHandlerSm := {[ 2%N := 10%N ]};
         fileHandlerSmToFileHandler := {[ 10%N := 2%N ]};
         heap := {[ 10%N := ∅ ]} |}.
Proof. vm_compute. reflexivity. Qed.

Lemma registry_maps_exact_inverses_witness :
  well_formed (demo ++ [Destroy 1]) = true ∧
  ∃ st, run 0 (demo ++ [Destroy 1]) initial = Returned tt st ∧
    (∀ h node, fileHandlerToFileHandlerSm st !! h = Some node
               ↔ fileHandlerSmToFileHandler st !! node = Some h) ∧
    fileHandlerToFileHandlerSm st = owners (demo ++ [Destroy 1]) ∧
    (∀ h, is_Some (owners (demo ++ [Destroy 1]) !! h) ->
       ∃ node, fileHandlerToFileHandlerSm st !! h = Some node ∧
               is_Some (heap st !! node) ∧
               ∀ h', fileHandlerToFileHandlerSm st !! h' = Some node -> h' = h) ∧
    (∀ node, is_Some (heap st !! node) ->
       ∃ h, fileHandlerToFileHandlerSm st !! h = Some node).
Proof.
  split; [reflexivity|].
  apply (registry_maps_exact_inverses 0 (demo ++ [Destroy 1])). reflexivity.
Defined.

Lemma eager_cleanup_witness :
  reachable 0 demo_state ∧
  descriptor_states demo_state 1 !! 7%Z = Some demo_fd7 ∧
  ∃ st', interest_is 0 Writable 1 7 false demo_state = Returned tt st' ∧
    (other_interest Writable (fileDescriptor demo_fd7) = false ->
       descriptor_states st' 1 !! 7%Z = None) ∧
    (other_interest Writable (fileDescriptor demo_fd7) = true ->
       descriptor_states st' 1 !! 7%Z
       = Some (with_fileDescriptor demo_fd7
                 (set_flag Writable false (fileDescriptor demo_fd7)))) ∧
    (∀ key', key' ≠ 7%Z ->
       descriptor_states st' 1 !! key' = descriptor_states demo_state 1 !! key').
Proof.
  split; [apply demo_reachable|]. split; [reflexivity|].
  apply (eager_cleanup 0 demo_state 1 7 demo_fd7 Writable);
    [apply demo_reachable|reflexivity].
Defined.

Lemma lazy_creation_witness :
  reachable 0 demo_state ∧
  fileHandlerToFileHandlerSm demo_state !! 1%N = Some 10%N ∧
  descriptor_states demo_state 1 !! 9%Z = None ∧
  ∃ st', interest_is 0 Readable 1 9 true demo_state = Returned tt st' ∧
    descriptor_states st' 1
    = <[9%Z := {| fd := 9;
                  fileDescriptor :=
                    set_flag Readable true {| descriptor := 9;
                                              notifyOnReadable := false;
                                              notifyOnWritable := false;
                                              notifyOnException := false |};
                  fileHandlerSm := 10 |}]> (descriptor_states demo_state 1) ∧
    size (descriptor_states st' 1) = S (size (descriptor_states demo_state 1)) ∧
    interest_is 0 Readable 1 9 true st' = Returned tt st' ∧
    (∀ k', ∃ st'', interest_is 0 k' 1 9 true st' = Returned tt st'' ∧
                   size (descriptor_states st'' 1)
                   = S (size (descriptor_states demo_state 1))).
Proof.
  split; [apply demo_reachable|]. split; [reflexivity|]. split; [reflexivity|].
  apply (lazy_creation 0 demo_state 1 10 9 Readable);
    [apply demo_reachable|reflexivity|reflexivity].
Defined.

Lemma descriptor_state_iff_interest_witness :
  reachable 0 demo_state ∧
  (∀ h key, is_Some (descriptor_states demo_state h !! key)
            ↔ ∃ k, current_interest demo_state h key k = true) ∧
  (∀ k0 h0 key0 v, is_Some (fileHandlerToFileHandlerSm demo_state !! h0) ->
     ∃ st', interest_is 0 k0 h0 key0 v demo_state = Returned tt st' ∧
       ∀ h key, is_Some (descriptor_states st' h !! key)
                ↔ ∃ k, current_interest st' h key k = true).
Proof.
  split; [apply demo_reachable|].
  apply (descriptor_state_iff_interest 0 demo_state). apply demo_reachable.
Defined.

Lemma interest_setter_idempotent_witness :
  reachable 0 demo_state ∧
  is_Some (fileHandlerToFileHandlerSm demo_state !! 2%N) ∧
  ∃ st', interest_is 0 ExceptionPending 2 5 true demo_state = Returned tt st' ∧
         (interest_is 0 ExceptionPending 2 5 true;;
          interest_is 0 ExceptionPending 2 5 true) demo_state = Returned tt st'.
Proof.
  split; [apply demo_reachable|]. split; [by exists 20%N|].
  apply (interest_setter_idempotent 0 demo_state 2 5 ExceptionPending true);
    [apply demo_reachable|by exists 20%N].
Defined.

Lemma clearing_unset_interest_changes_nothing_witness :
  reachable 0 demo_state ∧
  is_Some (fileHandlerToFileHandlerSm demo_state !! 1%N) ∧
  current_interest demo_state 1 7 ExceptionPending = false ∧
  interest_is 0 ExceptionPending 1 7 false demo_state = Returned tt demo_state.
Proof.
  split; [apply demo_reachable|]. split; [by exists 10%N|]. split; [reflexivity|].
  apply (clearing_unset_interest_changes_nothing 0 demo_state 1 7 ExceptionPending);
    [apply demo_reachable|by exists 10%N|reflexivity].
Defined.

Lemma dispatch_reaches_owner_witness :
  reachable 0 demo_state ∧
  descriptor_states demo_state 1 !! 7%Z = Some demo_fd7 ∧
  handle Readable demo_fd7 demo_state = Returned (on_readable 1 7) demo_state.
Proof.
  split; [apply demo_reachable|]. split; [reflexivity|].
  apply (dispatch_reaches_owner 0 demo_state 1 7 demo_fd7 Readable);
    [apply demo_reachable|reflexivity].
Defined.

Lemma dispatch_after_destroy_aborts_witness :
  ∃ st, run 0 ([Construct 1 10; SetInterest Readable 1 7 true]
               ++ Destroy 1 :: [Construct 2 20]) initial = Returned tt st ∧
    ∀ k self, fileHandlerSm self = 10%N ->
      handle k self st
      = AssertionFailed
          {| fileHandlerToFileHandlerSm := fileHandlerToFileHandlerSm st;
             fileHandlerSmToFileHandler := <[10%N := null]> (fileHandlerSmToFileHandler st);
             heap := heap st |}.
Proof.
  apply (dispatch_after_destroy_aborts 0
           [Construct 1 10; SetInterest Readable 1 7 true] 1 10 [Construct 2 20]).
  - reflexivity.
  - reflexivity.
  - intros h' Hin. apply list_elem_of_singleton in Hin. discriminate.
Defined.

(** ** Where the dispatch departs from the spec *)

(** C7, as the spec states it, fails when the allocator hands the address of
    the freed node out again: handler 1 with node 10 is destroyed, handler 2
    is constructed with its node at address 10, and a notification that
    names node 10 is not stopped at the assertion but calls handler 2. *)
Lemma dispatch_after_destroy_reused_address :
  well_formed ([Construct 1 10] ++ Destroy 1 :: [Construct 2 10]) = true ∧
  owners [Construct 1 10] !! 1%N = Some 10%N ∧
  ∃ st, run 0 ([Construct 1 10] ++ Destroy 1 :: [Construct 2 10]) initial
        = Returned tt st ∧
    handle Readable {| fd := 7;
                       fileDescriptor := {| descriptor := 7;
                                            notifyOnReadable := true;
                                            notifyOnWritable := false;
                                            notifyOnException := false |};
                       fileHandlerSm := 10 |} st
    = Returned (on_readable 2 7) st.
Proof.
  split; [reflexivity|]. split; [reflexivity|].
  eexists. split; [vm_compute; reflexivity|]. vm_compute. reflexivity.
Qed.

(** C8, as the spec states it, fails on a notification whose node the
    registry does not hold: after handler 1 with node 10 has been destroyed,
    a notification that names node 10 stops at the assertion, and by then the
    lookup has entered node 10, with a null handler, into the node-to-handler
    map, which had no entry for it. *)
Lemma dispatch_miss_enters_null_handler :
  ∃ st st', run 0 [Construct 1 10; Destroy 1] initial = Returned tt st ∧
    handle Readable {| fd := 7;
                       fileDescriptor := {| descriptor := 7;
                                            notifyOnReadable := true;
                                            notifyOnWritable := false;
                                            notifyOnException := false |};
                       fileHandlerSm := 10 |} st
    = AssertionFailed st' ∧
    fileHandlerSmToFileHandler st !! 10%N = None ∧
    fileHandlerSmToFileHandler st' !! 10%N = Some null ∧
    st' ≠ st.
Proof.
  do 2 eexists. split; [vm_compute; reflexivity|].
  split; [vm_compute; reflexivity|].
  split; [reflexivity|]. split; [reflexivity|].
  intros Heq. apply (f_equal (fun s => fileHandlerSmToFileHandler s !! 10%N)) in Heq.
  vm_compute in Heq. discriminate.
Qed.

(** ** The further properties applied to the concrete run *)

Lemma destroying_unregistered_handler_changes_nothing_witness :
  reachable 0 demo_state ∧
  fileHandlerToFileHandlerSm demo_state !! 3%N = None ∧
  file_handler_dtor 3 demo_state = Returned tt demo_state.
Proof.
  split; [apply demo_reachable|]. split; [reflexivity|].
  apply (destroying_unregistered_handler_changes_nothing 0 demo_state 3);
    [apply demo_reachable|reflexivity].
Defined.

Lemma setter_without_registration_aborts_witness :
  fileHandlerToFileHandlerSm demo_state !! 3%N = None ∧
  interest_is 0 Writable 3 7 true demo_state
  = AssertionFailed
      {| fileHandlerToFileHandlerSm :=
           <[3%N := null]> (fileHandlerToFileHandlerSm demo_state);
         fileHandlerSmToFileHandler := fileHandlerSmToFileHandler demo_state;
         heap := heap demo_state |}.
Proof.
  split; [reflexivity|].
  apply (setter_without_registration_aborts 0 Writable 3 7 true demo_state).
  reflexivity.
Defined.

Lemma construct_destroy_round_trip_witness :
  fileHandlerToFileHandlerSm demo_state !! 3%N = None ∧
  fileHandlerSmToFileHandler demo_state !! 30%N = None ∧
  heap demo_state !! 30%N = None ∧
  (file_handler_ctor 3 30;; file_handler_dtor 3) demo_state = Returned tt demo_state.
Proof.
  do 3 (split; [reflexivity|]).
  apply (construct_destroy_round_trip demo_state 3 30); reflexivity.
Defined.


Lemma no_state_left_after_teardown_witness :
  well_formed (demo ++ [Destroy 2; Destroy 1]) = true ∧
  owners (demo ++ [Destroy 2; Destroy 1]) = ∅ ∧
  run 0 (demo ++ [Destroy 2; Destroy 1]) initial = Returned tt initial.
Proof.
  split; [reflexivity|]. split; [by vm_compute|].
  apply (no_state_left_after_teardown 0 (demo ++ [Destroy 2; Destroy 1]));
    [reflexivity|by vm_compute].
Defined.

Lemma setter_frame_witness :
  reachable 0 demo_state ∧
  is_Some (fileHandlerToFileHandlerSm demo_state !! 1%N) ∧
  ∃ st', interest_is 0 Readable 1 7 false demo_state = Returned tt st' ∧
    fileHandlerToFileHandlerSm st' = fileHandlerToFileHandlerSm demo_state ∧
    fileHandlerSmToFileHandler st' = fileHandlerSmToFileHandler demo_state ∧
    (∀ key', key' ≠ 7%Z ->
       descriptor_states st' 1 !! key' = descriptor_states demo_state 1 !! key') ∧
    (∀ h', h' ≠ 1%N -> descriptor_states st' h' = descriptor_states demo_state h').
Proof.
  split; [apply demo_reachable|]. split; [by exists 10%N|].
  apply (setter_frame 0 demo_state 1 7 Readable false);
    [apply demo_reachable|by exists 10%N].
Defined.

Lemma setter_sets_one_flag_witness :
  reachable 0 demo_state ∧
  is_Some (fileHandlerToFileHandlerSm demo_state !! 2%N) ∧
  ∃ st', interest_is 0 ExceptionPending 2 5 false demo_state = Returned tt st' ∧
    current_interest st' 2 5 ExceptionPending = false ∧
    ∀ k', k' ≠ ExceptionPending ->
      current_interest st' 2 5 k' = current_interest demo_state 2 5 k'.
Proof.
  split; [apply demo_reachable|]. split; [by exists 20%N|].
  apply (setter_sets_one_flag 0 demo_state 2 5 ExceptionPending false);
    [apply demo_reachable|by exists 20%N].
Defined.

Lemma setters_commute_witness :
  reachable 0 demo_state ∧
  is_Some (fileHandlerToFileHandlerSm demo_state !! 1%N) ∧
  (1%N, 7%Z, Readable) ≠ (1%N, 7%Z, Writable) ∧
  ∃ st', (interest_is 0 Readable 1 7 false;; interest_is 0 Writable 1 7 false) demo_state
         = Returned tt st' ∧
         (interest_is 0 Writable 1 7 false;; interest_is 0 Readable 1 7 false) demo_state
         = Returned tt st'.
Proof.
  split; [apply demo_reachable|]. split; [by exists 10%N|]. split; [discriminate|].
  apply (setters_commute 0 demo_state 1 7 Readable false 1 7 Writable false);
    [apply demo_reachable|by exists 10%N|by exists 10%N|discriminate].
Defined.

Lemma last_setter_call_wins_witness :
  reachable 0 demo_state ∧
  is_Some (fileHandlerToFileHandlerSm demo_state !! 2%N) ∧
  ∃ st', (interest_is 0 ExceptionPending 2 5 false;;
          interest_is 0 ExceptionPending 2 5 true) demo_state = Returned tt st' ∧
         interest_is 0 ExceptionPending 2 5 true demo_state = Returned tt st'.
Proof.
  split; [apply demo_reachable|]. split; [by exists 20%N|].
  apply (last_setter_call_wins 0 demo_state 2 5 ExceptionPending false true);
    [apply demo_reachable|by exists 20%N].
Defined.

Lemma reasserting_set_interest_changes_nothing_witness :
  reachable 0 demo_state ∧
  current_interest demo_state 1 7 Writable = true ∧
  interest_is 0 Writable 1 7 true demo_state = Returned tt demo_state.
Proof.
  split; [apply demo_reachable|]. split; [reflexivity|].
  apply (reasserting_set_interest_changes_nothing 0 demo_state 1 7 Writable);
    [apply demo_reachable|reflexivity].
Defined.

Lemma change_and_restore_interest_witness :
  reachable 0 demo_state ∧
  is_Some (fileHandlerToFileHandlerSm demo_state !! 2%N) ∧
  (interest_is 0 ExceptionPending 2 5 false;;
   interest_is 0 ExceptionPending 2 5 (current_interest demo_state 2 5 ExceptionPending))
    demo_state
  = Returned tt demo_state.
Proof.
  split; [apply demo_reachable|]. split; [by exists 20%N|].
  apply (change_and_restore_interest 0 demo_state 2 5 ExceptionPending false);
    [apply demo_reachable|by exists 20%N].
Defined.

Lemma get_file_descriptor_sm_serves_record_witness :
  fileHandlerToFileHandlerSm demo_state !! 1%N = Some 10%N ∧
  heap demo_state !! 10%N = Some {[ 7%Z := demo_fd7 ]} ∧
  ∃ st' r, get_file_descriptor_sm 0 1 9 demo_state = Returned (10%N, 9%Z) st' ∧
    fileHandlerToFileHandlerSm st' = fileHandlerToFileHandlerSm demo_state ∧
    fileHandlerSmToFileHandler st' = fileHandlerSmToFileHandler demo_state ∧
    descriptor_states st' 1 !! 9%Z = Some r ∧
    descriptor (fileDescriptor r) = 9%Z ∧
    (∀ k, flag k (fileDescriptor r) = flags_at {[ 7%Z := demo_fd7 ]} 9 k) ∧
    (∀ r0, ({[ 7%Z := demo_fd7 ]} : gmap Z FileDescriptorSm) !! 9%Z = Some r0 ->
           fd r = fd r0 ∧ fileHandlerSm r = fileHandlerSm r0) ∧
    (({[ 7%Z := demo_fd7 ]} : gmap Z FileDescriptorSm) !! 9%Z = None ->
           fd r = 9%Z ∧ fileHandlerSm r = 10%N) ∧
    (∀ key', key' ≠ 9%Z ->
       descriptor_states st' 1 !! key'
       = ({[ 7%Z := demo_fd7 ]} : gmap Z FileDescriptorSm) !! key') ∧
    (∀ node', node' ≠ 10%N -> heap st' !! node' = heap demo_state !! node').
Proof.
  split; [reflexivity|]. split; [reflexivity|].
  apply (get_file_descriptor_sm_serves_record 0 demo_state 1 10 {[ 7%Z := demo_fd7 ]} 9);
    [reflexivity|discriminate|reflexivity].
Defined.

Lemma cleanup_removes_only_idle_records_witness :
  heap demo_state !! 10%N = Some {[ 7%Z := demo_fd7 ]} ∧
  maybeCleanupAfterFileDescriptor 10 9 demo_state
  = match ({[ 7%Z := demo_fd7 ]} : gmap Z FileDescriptorSm) !! 9%Z with
    | None => AssertionFailed demo_state
    | Some r =>
        Returned tt (if any_interest r then demo_state
                     else with_heap demo_state
                            (<[10%N := delete 9%Z ({[ 7%Z := demo_fd7 ]} : gmap Z FileDescriptorSm)]>
                               (heap demo_state)))
    end.
Proof.
  split; [reflexivity|].
  apply (cleanup_removes_only_idle_records demo_state 10 {[ 7%Z := demo_fd7 ]} 9).
  reflexivity.
Defined.

Lemma dispatch_routes_by_node_only_witness :
  reachable 0 demo_state ∧
  fileHandlerToFileHandlerSm demo_state !! 2%N = Some 20%N ∧
  handle Writable {| fd := 8; fileDescriptor := fileDescriptor demo_fd5;
                     fileHandlerSm := 20 |} demo_state
  = Returned (on_writable 2 8) demo_state.
Proof.
  split; [apply demo_reachable|]. split; [reflexivity|].
  apply (dispatch_routes_by_node_only 0 demo_state 2 20
           {| fd := 8; fileDescriptor := fileDescriptor demo_fd5; fileHandlerSm := 20 |}
           Writable);
    [apply demo_reachable|reflexivity|reflexivity].
Defined.


Lemma interest_then_dispatch_witness :
  reachable 0 demo_state ∧
  is_Some (fileHandlerToFileHandlerSm demo_state !! 2%N) ∧
  ∃ st' r, interest_is 0 Readable 2 9 true demo_state = Returned tt st' ∧
    descriptor_states st' 2 !! 9%Z = Some r ∧
    ∀ k', handle k' r st' = Returned (callback k' 2 9) st'.
Proof.
  split; [apply demo_reachable|]. split; [by exists 20%N|].
  apply (interest_then_dispatch 0 demo_state 2 9 Readable);
    [apply demo_reachable|by exists 20%N].
Defined.

End File.

(** * The manager getters of [eos/inline/sdk.h] *)

Module Sdk.

Definition null : N := 0%N.

(** The managers an [sdk] object hands out. *)
Inductive manager :=
| acl_mgr
| agent_mgr
| decap_group_mgr
| directflow_mgr
| eth_intf_mgr
| eth_phy_intf_mgr
| fib_mgr
| intf_mgr
| ip_route_mgr
| mac_table_mgr
| mlag_mgr
| mount_mgr
| mpls_route_mgr
| neighbor_table_mgr
| nexthop_group_mgr
| policy_map_mgr
| system_mgr.

(** The manager pointers of an [sdk] object. *)
Record sdk := {
  acl_mgr_ : N;
  agent_mgr_ : N;
  decap_group_mgr_ : N;
  directflow_mgr_ : N;
  eth_intf_mgr_ : N;
  eth_phy_intf_mgr_ : N;
  fib_mgr_ : N;
  intf_mgr_ : N;
  ip_route_mgr_ : N;
  mac_table_mgr_ : N;
  mlag_mgr_ : N;
  mount_mgr_ : N;
  mpls_route_mgr_ : N;
  neighbor_table_mgr_ : N;
  nexthop_group_mgr_ : N;
  policy_map_mgr_ : N;
  system_mgr_ : N
}.

Definition field (k : manager) : sdk -> N :=
  match k with
  | acl_mgr => acl_mgr_
  | agent_mgr => agent_mgr_
  | decap_group_mgr => decap_group_mgr_
  | directflow_mgr => directflow_mgr_
  | eth_intf_mgr => eth_intf_mgr_
  | eth_phy_intf_mgr => eth_phy_intf_mgr_
  | fib_mgr => fib_mgr_
  | intf_mgr => intf_mgr_
  | ip_route_mgr => ip_route_mgr_
  | mac_table_mgr => mac_table_mgr_
  | mlag_mgr => mlag_mgr_
  | mount_mgr => mount_mgr_
  | mpls_route_mgr => mpls_route_mgr_
  | neighbor_table_mgr => neighbor_table_mgr_
  | nexthop_group_mgr => nexthop_group_mgr_
  | policy_map_mgr => policy_map_mgr_
  | system_mgr => system_mgr_
  end.

Section Getters.

(** [init_acl_mgr()], [init_agent_mgr()], ...: defined outside the header;
    each may change the object in any way. *)
Variable init_mgr : manager -> sdk -> sdk.

(** The shape every getter of the header has:
    [if (!m_) { init_m(); } return m_;].  The result is the pointer returned,
    the object after the call and the initialisers the call invoked. *)
Definition lazily (m_ : sdk -> N) (k : manager) (s : sdk) : N * sdk * list manager :=
  if bool_decide (m_ s = null)
  then (m_ (init_mgr k s), init_mgr k s, [k])
  else (m_ s, s, []).

Definition get_acl_mgr : sdk -> N * sdk * list manager :=
  lazily acl_mgr_ acl_mgr.

Definition get_agent_mgr : sdk -> N * sdk * list manager :=
  lazily agent_mgr_ agent_mgr.

Definition get_decap_group_mgr : sdk -> N * sdk * list manager :=
  lazily decap_group_mgr_ decap_group_mgr.

Definition get_directflow_mgr : sdk -> N * sdk * list manager :=
  lazily directflow_mgr_ directflow_mgr.

Definition get_eth_intf_mgr : sdk -> N * sdk * list manager :=
  lazily eth_intf_mgr_ eth_intf_mgr.

Definition get_eth_phy_intf_mgr : sdk -> N * sdk * list manager :=
  lazily eth_phy_intf_mgr_ eth_phy_intf_mgr.

Definition get_fib_mgr : sdk -> N * sdk * list manager :=
  lazily fib_mgr_ fib_mgr.

Definition get_intf_mgr : sdk -> N * sdk * list manager :=
  lazily intf_mgr_ intf_mgr.

Definition get_ip_route_mgr : sdk -> N * sdk * list manager :=
  lazily ip_route_mgr_ ip_route_mgr.

Definition get_mac_table_mgr : sdk -> N * sdk * list manager :=
  lazily mac_table_mgr_ mac_table_mgr.

Definition get_mlag_mgr : sdk -> N * sdk * list manager :=
  lazily mlag_mgr_ mlag_mgr.

Definition get_mount_mgr : sdk -> N * sdk * list manager :=
  lazily mount_mgr_ mount_mgr.

Definition get_mpls_route_mgr : sdk -> N * sdk * list manager :=
  lazily mpls_route_mgr_ mpls_route_mgr.

Definition get_neighbor_table_mgr : sdk -> N * sdk * list manager :=
  lazily neighbor_table_mgr_ neighbor_table_mgr.

Definition get_nexthop_group_mgr : sdk -> N * sdk * list manager :=
  lazily nexthop_group_mgr_ nexthop_group_mgr.

Definition get_policy_map_mgr : sdk -> N * sdk * list manager :=
  lazily policy_map_mgr_ policy_map_mgr.

Definition get_system_mgr : sdk -> N * sdk * list manager :=
  lazily system_mgr_ system_mgr.

Definition getter (k : manager) : sdk -> N * sdk * list manager :=
  match k with
  | acl_mgr => get_acl_mgr
  | agent_mgr => get_agent_mgr
  | decap_group_mgr => get_decap_group_mgr
  | directflow_mgr => get_directflow_mgr
  | eth_intf_mgr => get_eth_intf_mgr
  | eth_phy_intf_mgr => get_eth_phy_intf_mgr
  | fib_mgr => get_fib_mgr
  | intf_mgr => get_intf_mgr
  | ip_route_mgr => get_ip_route_mgr
  | mac_table_mgr => get_mac_table_mgr
  | mlag_mgr => get_mlag_mgr
  | mount_mgr => get_mount_mgr
  | mpls_route_mgr => get_mpls_route_mgr
  | neighbor_table_mgr => get_neighbor_table_mgr
  | nexthop_group_mgr => get_nexthop_group_mgr
  | policy_map_mgr => get_policy_map_mgr
  | system_mgr => get_system_mgr
  end.

(** [n] calls of a getter in a row: the pointers returned, the object after
    the last call and the initialisers invoked on the way. *)
Fixpoint calls (k : manager) (n : nat) (s : sdk) : list N * sdk * list manager :=
  match n with
  | O => ([], s, [])
  | S n' =>
      let '(p, s1, l1) := getter k s in
      let '(ps, s2, l2) := calls k n' s1 in
      (p :: ps, s2, l1 ++ l2)
  end.

Lemma getter_unfold k s :
  getter k s = if bool_decide (field k s = null)
               then (field k (init_mgr k s), init_mgr k s, [k])
               else (field k s, s, []).
Proof. destruct k; reflexivity. Qed.

Lemma getter_initialised k s :
  field k s ≠ null -> getter k s = (field k s, s, []).
Proof. intros Hs. by rewrite getter_unfold, bool_decide_eq_false_2. Qed.

Lemma calls_initialised k n s :
  field k s ≠ null -> calls k n s = (replicate n (field k s), s, []).
Proof.
  intros Hs. induction n as [|n IH]; cbn; [done|].
  by rewrite (getter_initialised _ _ Hs), IH.
Qed.

(** C10. Provided the initialiser of a manager leaves its field non-null,
    the first call of the manager's getter invokes the initialiser exactly
    when the field is null and returns the non-null pointer now in the field;
    any number of further calls return that same pointer, leave the object as
    it is and invoke no initialiser. *)
Theorem getter_initialises_once k s n :
  (∀ s0, field k (init_mgr k s0) ≠ null) ->
  ∃ p s1 l1, getter k s = (p, s1, l1) ∧
    p ≠ null ∧ field k s1 = p ∧
    l1 = (if bool_decide (field k s = null) then [k] else []) ∧
    calls k n s1 = (replicate n p, s1, []).
Proof.
  intros Hinit. rewrite getter_unfold.
  destruct (bool_decide (field k s = null)) eqn:Hnull.
  - do 3 eexists. split; [reflexivity|].
    split; [apply Hinit|]. split; [done|]. split; [done|].
    apply calls_initialised, Hinit.
  - apply bool_decide_eq_false in Hnull.
    do 3 eexists. split; [reflexivity|].
    split; [done|]. split; [done|]. split; [done|].
    by apply calls_initialised.
Qed.

(** ** Further properties of the getters *)

(** The call [sdk::main_loop] makes on the agent manager, whose own
    [main_loop] is outside the header: the receiver and the arguments. *)
Record main_loop_call := {
  receiver : N;
  agent_name : string;
  argc : Z;
  argv : list string
}.

(** [sdk::main_loop]: [get_agent_mgr()->main_loop(agent_name, argc, argv)]. *)
Definition main_loop (agent_name0 : string) (argc0 : Z) (argv0 : list string)
    (s : sdk) : main_loop_call * sdk * list manager :=
  let '(p, s', l) := get_agent_mgr s in
  ({| receiver := p; agent_name := agent_name0; argc := argc0; argv := argv0 |}, s', l).

(** The getters of the managers [ks], called one after the other: the
    pointers returned, the object after the last call and the initialisers
    invoked on the way. *)
Fixpoint call_each (ks : list manager) (s : sdk) : list N * sdk * list manager :=
  match ks with
  | [] => ([], s, [])
  | k :: ks' =>
      let '(p, s1, l1) := getter k s in
      let '(ps, s2, l2) := call_each ks' s1 in
      (p :: ps, s2, l1 ++ l2)
  end.

Lemma getter_step k s :
  (∀ s0, field k (init_mgr k s0) ≠ null) ->
  (∀ j s0, field j s0 ≠ null -> field j (init_mgr k s0) = field j s0) ->
  ∃ p s1 l1, getter k s = (p, s1, l1) ∧
    field k s1 = p ∧ p ≠ null ∧
    (∀ j, field j s ≠ null -> field j s1 = field j s) ∧
    (l1 = [] ∨ (l1 = [k] ∧ field k s = null)).
Proof.
  intros Hinit Hkeep. rewrite getter_unfold.
  destruct (bool_decide (field k s = null)) eqn:Hnull.
  - apply bool_decide_eq_true in Hnull.
    do 3 eexists. split; [reflexivity|]. split; [done|]. split; [apply Hinit|].
    split; [intros j; apply Hkeep|]. by right.
  - apply bool_decide_eq_false in Hnull.
    do 3 eexists. split; [reflexivity|]. split; [done|]. split; [done|].
    split; [done|]. by left.
Qed.

(** X17. On an object whose managers [ks] are all initialised, the getters
    of [ks], called in any order and any number of times, are plain reads:
    each returns the pointer in its field, the object is unchanged and no
    initialiser is invoked, whatever the initialisers would do. *)
Theorem getters_of_initialised_managers_are_reads ks s :
  (∀ k, k ∈ ks -> field k s ≠ null) ->
  call_each ks s = (map (fun k => field k s) ks, s, []).
Proof.
  intros Hks. induction ks as [|k ks IH]; cbn; [done|].
  rewrite getter_initialised by (apply Hks; left).
  rewrite IH; [done|]. intros k' Hk'. apply Hks. by right.
Qed.

(** X18. Provided every initialiser leaves its own manager non-null and
    leaves alone every manager that is already non-null, then in any sequence
    of getter calls on an object, in any order: no initialiser is invoked
    twice, and only for a manager that was requested and was null at the
    start; every call returns the non-null pointer that the object holds for
    its manager at the end, so two calls for one manager return the same
    pointer; and a manager that was non-null at the start keeps its pointer. *)
Theorem initialisers_run_once_in_any_order ks : ∀ s,
  (∀ k s0, field k (init_mgr k s0) ≠ null) ->
  (∀ j k s0, field j s0 ≠ null -> field j (init_mgr k s0) = field j s0) ->
  ∃ ps s' log, call_each ks s = (ps, s', log) ∧
    NoDup log ∧
    (∀ k, k ∈ log -> k ∈ ks ∧ field k s = null) ∧
    (∀ i k, ks !! i = Some k -> ps !! i = Some (field k s') ∧ field k s' ≠ null) ∧
    (∀ k, field k s ≠ null -> field k s' = field k s).
Proof.
  induction ks as [|k ks IH]; intros s Hinit Hkeep; cbn [call_each].
  - exists [], s, []. split; [done|]. split; [constructor|].
    split; [intros k Hk; by apply elem_of_nil in Hk|]. split; [done|done].
  - destruct (getter_step k s (Hinit k) (fun j => Hkeep j k))
      as (p & s1 & l1 & -> & Hp & Hpn & Hkeep1 & Hl1).
    destruct (IH s1 Hinit Hkeep) as (ps & s2 & l2 & -> & Hnd & Hlog & Hidx & Hkeep2).
    exists (p :: ps), s2, (l1 ++ l2). split; [done|].
    assert (Hk2 : field k s2 = p) by (rewrite Hkeep2; congruence).
    split; [|split; [|split]].
    + apply NoDup_app. split; [|split; [|done]].
      * destruct Hl1 as [->|[-> _]]; [constructor|apply NoDup_singleton].
      * intros j Hj1 Hj2. destruct Hl1 as [->|[-> _]]; [by apply elem_of_nil in Hj1|].
        apply list_elem_of_singleton in Hj1 as ->.
        destruct (Hlog _ Hj2) as [_ Hnull]. congruence.
    + intros j [Hj|Hj]%elem_of_app.
      * destruct Hl1 as [->|[-> Hnull]]; [by apply elem_of_nil in Hj|].
        apply list_elem_of_singleton in Hj as ->. split; [left|done].
      * destruct (Hlog _ Hj) as [Hin Hnull]. split; [by right|].
        destruct (decide (field j s = null)) as [|Hne]; [done|].
        rewrite (Hkeep1 _ Hne) in Hnull. done.
    + intros [|i] j; cbn.
      * intros [= <-]. split; [by rewrite Hk2|congruence].
      * apply Hidx.
    + intros j Hj. rewrite Hkeep2; rewrite (Hkeep1 _ Hj); done.
Qed.

(** X19. Provided [init_agent_mgr] leaves the agent manager non-null,
    [main_loop] calls the agent manager's [main_loop] on a non-null receiver,
    the pointer the object holds afterwards, with the arguments it was given;
    it invokes [init_agent_mgr] exactly when the object had no agent manager,
    and no other initialiser; a second [main_loop] makes the same call on the
    same receiver and invokes no initialiser. *)
Theorem main_loop_calls_agent_manager a n v s :
  (∀ s0, field agent_mgr (init_mgr agent_mgr s0) ≠ null) ->
  ∃ c s1 l, main_loop a n v s = (c, s1, l) ∧
    receiver c ≠ null ∧ receiver c = agent_mgr_ s1 ∧
    agent_name c = a ∧ argc c = n ∧ argv c = v ∧
    l = (if bool_decide (agent_mgr_ s = null) then [agent_mgr] else []) ∧
    main_loop a n v s1 = (c, s1, []).
Proof.
  intros Hinit. unfold main_loop.
  change get_agent_mgr with (getter agent_mgr). rewrite getter_unfold.
  change (field agent_mgr) with agent_mgr_ in *.
  destruct (bool_decide (agent_mgr_ s = null)) eqn:Hnull.
  - do 3 eexists. split; [reflexivity|]. cbn.
    split; [apply Hinit|]. do 5 (split; [done|]).
    change get_agent_mgr with (getter agent_mgr).
    rewrite getter_initialised; [done|apply Hinit].
  - apply bool_decide_eq_false in Hnull.
    do 3 eexists. split; [reflexivity|]. cbn.
    do 6 (split; [done|]).
    change get_agent_mgr with (getter agent_mgr).
    by rewrite getter_initialised.
Qed.

End Getters.

Definition every_manager_at (p : N) : sdk :=
  {| acl_mgr_ := p;
     agent_mgr_ := p;
     decap_group_mgr_ := p;
     directflow_mgr_ := p;
     eth_intf_mgr_ := p;
     eth_phy_intf_mgr_ := p;
     fib_mgr_ := p;
     intf_mgr_ := p;
     ip_route_mgr_ := p;
     mac_table_mgr_ := p;
     mlag_mgr_ := p;
     mount_mgr_ := p;
     mpls_route_mgr_ := p;
     neighbor_table_mgr_ := p;
     nexthop_group_mgr_ := p;
     policy_map_mgr_ := p;
     system_mgr_ := p |}.

(** An initialiser for the example: it sets every manager pointer to 1. *)
Definition init_at_1 : manager -> sdk -> sdk := fun _ _ => every_manager_at 1.

Lemma getter_initialises_once_witness :
  (∀ s0 : sdk, field acl_mgr (init_at_1 acl_mgr s0) ≠ null) ∧
  ∃ p s1 l1, getter init_at_1 acl_mgr (every_manager_at 0) = (p, s1, l1) ∧
    p ≠ null ∧ field acl_mgr s1 = p ∧
    l1 = (if bool_decide (field acl_mgr (every_manager_at 0) = null)
          then [acl_mgr] else []) ∧
    calls init_at_1 acl_mgr 3 s1 = (replicate 3 p, s1, []).
Proof.
  split; [intros s0; vm_compute; discriminate|].
  apply (getter_initialises_once init_at_1 acl_mgr (every_manager_at 0) 3).
  intros s0. vm_compute. discriminate.
Defined.

(** ** The further properties applied to an example *)

Definition or_else (q p : N) : N := if bool_decide (q = null) then p else q.

(** An initialiser for the examples: it puts [p] where a manager pointer is
    null and leaves the others. *)
Definition fill_nulls (p : N) (s : sdk) : sdk :=
  {| acl_mgr_ := or_else (acl_mgr_ s) p;
     agent_mgr_ := or_else (agent_mgr_ s) p;
     decap_group_mgr_ := or_else (decap_group_mgr_ s) p;
     directflow_mgr_ := or_else (directflow_mgr_ s) p;
     eth_intf_mgr_ := or_else (eth_intf_mgr_ s) p;
     eth_phy_intf_mgr_ := or_else (eth_phy_intf_mgr_ s) p;
     fib_mgr_ := or_else (fib_mgr_ s) p;
     intf_mgr_ := or_else (intf_mgr_ s) p;
     ip_route_mgr_ := or_else (ip_route_mgr_ s) p;
     mac_table_mgr_ := or_else (mac_table_mgr_ s) p;
     mlag_mgr_ := or_else (mlag_mgr_ s) p;
     mount_mgr_ := or_else (mount_mgr_ s) p;
     mpls_route_mgr_ := or_else (mpls_route_mgr_ s) p;
     neighbor_table_mgr_ := or_else (neighbor_table_mgr_ s) p;
     nexthop_group_mgr_ := or_else (nexthop_group_mgr_ s) p;
     policy_map_mgr_ := or_else (policy_map_mgr_ s) p;
     system_mgr_ := or_else (system_mgr_ s) p |}.

Definition init_fill : manager -> sdk -> sdk := fun _ s => fill_nulls 4 s.

Lemma init_fill_sets k s0 : field k (init_fill k s0) ≠ null.
Proof.
  destruct k; cbn; unfold or_else; case_bool_decide; done.
Qed.

Lemma init_fill_keeps j k s0 :
  field j s0 ≠ null -> field j (init_fill k s0) = field j s0.
Proof.
  destruct j; cbn; unfold or_else; intros Hj; by rewrite bool_decide_eq_false_2.
Qed.

Lemma getters_of_initialised_managers_are_reads_witness :
  (∀ k, k ∈ [fib_mgr; acl_mgr; fib_mgr] -> field k (every_manager_at 5) ≠ null) ∧
  call_each init_at_1 [fib_mgr; acl_mgr; fib_mgr] (every_manager_at 5)
  = (map (fun k => field k (every_manager_at 5)) [fib_mgr; acl_mgr; fib_mgr],
     every_manager_at 5, []).
Proof.
  assert (H : ∀ k, k ∈ [fib_mgr; acl_mgr; fib_mgr] -> field k (every_manager_at 5) ≠ null).
  { intros k _. destruct k; vm_compute; discriminate. }
  split; [exact H|].
  apply (getters_of_initialised_managers_are_reads init_at_1
           [fib_mgr; acl_mgr; fib_mgr] (every_manager_at 5) H).
Defined.

Lemma initialisers_run_once_in_any_order_witness :
  ∃ ps s' log,
    call_each init_fill [fib_mgr; acl_mgr; fib_mgr] (every_manager_at 0) = (ps, s', log) ∧
    NoDup log ∧
    (∀ k, k ∈ log ->
          k ∈ [fib_mgr; acl_mgr; fib_mgr] ∧ field k (every_manager_at 0) = null) ∧
    (∀ i k, [fib_mgr; acl_mgr; fib_mgr] !! i = Some k ->
            ps !! i = Some (field k s') ∧ field k s' ≠ null) ∧
    (∀ k, field k (every_manager_at 0) ≠ null ->
          field k s' = field k (every_manager_at 0)).
Proof.
  apply (initialisers_run_once_in_any_order init_fill
           [fib_mgr; acl_mgr; fib_mgr] (every_manager_at 0)).
  - apply init_fill_sets.
  - apply init_fill_keeps.
Defined.

Lemma main_loop_calls_agent_manager_witness :
  (∀ s0 : sdk, field agent_mgr (init_at_1 agent_mgr s0) ≠ null) ∧
  ∃ c s1 l, main_loop init_at_1 "agent" 1 ["agent"] (every_manager_at 0) = (c, s1, l) ∧
    receiver c ≠ null ∧ receiver c = agent_mgr_ s1 ∧
    agent_name c = "agent" ∧ argc c = 1%Z ∧ argv c = ["agent"] ∧
    l = (if bool_decide (agent_mgr_ (every_manager_at 0) = null)
         then [agent_mgr] else []) ∧
    main_loop init_at_1 "agent" 1 ["agent"] s1 = (c, s1, []).
Proof.
  split; [intros s0; vm_compute; discriminate|].
  apply (main_loop_calls_agent_manager init_at_1 "agent" 1 ["agent"] (every_manager_at 0)).
  intros s0. vm_compute. discriminate.
Defined.

End Sdk.
